(** * Adaptive colour-tap activity: scorer, policy, gateway, round generator, log

    Shallow embedding of [src/page.tsx] and the properties of its adaptive
    engine.

    Conventions of the embedding.
    - A JavaScript [number] is a rational [Q]: arithmetic is exact, the
      binary64 rounding of intermediate results is abstracted away.  Equality
      of numbers is [==] ([Qeq]).  Comparisons of two-decimal values against
      the literals [0.35] and [0.65] are the same in both readings; where the
      exact weighted sum is halfway between two hundredths, [toFixed] on the
      binary64 sum may print either neighbour, on the exact sum it prints the
      upper one.
    - React state is an explicit record [State]; a handler is a function from
      the state it closed over to the state after all its [setX] calls have
      been applied, the last call to a setter winning.
    - [Math.random()] and [Date.now()] read from a scripted [World]: two
      streams and two cursors, threaded through a small state monad [M].
    - A thrown exception is an explicit outcome ([Threw]). *)

From stdpp Require Import base numbers list strings relations.
From Stdlib Require Import QArith Qround Qminmax Qabs Lqa.

Local Open Scope Q_scope.

(** ** Numbers *)
Module Num.

(** [a < b] and [a >= b] on numbers, as booleans. *)
Definition ltb (a b : Q) : bool := negb (Qle_bool b a).
Definition geb (a b : Q) : bool := Qle_bool b a.

(** [Math.floor] and [Math.round] (round half up, towards +infinity). *)
Definition floor (x : Q) : Z := Qfloor x.
Definition round (x : Q) : Z := Qfloor (x + (1 # 2)).

(** [Number(x.toFixed(2))]: the nearest multiple of 1/100, the larger one in
    magnitude on a tie; the sign is handled apart, as [toFixed] does. *)
Definition hundredths (x : Q) : Z := Qfloor (x * 100 + (1 # 2)).

Definition toFixed2 (x : Q) : Q :=
  if ltb x 0
  then - (inject_Z (hundredths (- x)) / 100)
  else inject_Z (hundredths x) / 100.

End Num.

(** ** Frustration Scorer *)

(** [clamp(v, min = 0, max = 1)] with its default bounds written out. *)
Definition clamp (v : Q) (min max : Q) : Q := Qmax min (Qmin max v).
Definition clamp01 (v : Q) : Q := clamp v 0 1.

Record Signals := {
  sig_errorsConsecutive : Q;
  sig_hintsUsed : Q;
  sig_retriesSameRound : Q;
  sig_latencySec : Q;
  sig_perseveration : Q;
}.

Record Components := { fc_e : Q; fc_h : Q; fc_r : Q; fc_t : Q; fc_s : Q }.

Record Frustration := { value : Q; components : Components }.

(** The weighted sum, before rounding. *)
Definition weighted (c : Components) : Q :=
  (35 # 100) * fc_e c + (20 # 100) * fc_h c + (15 # 100) * fc_r c
  + (20 # 100) * fc_t c + (10 # 100) * fc_s c.

Definition computeFrustration (params : Signals) : Frustration :=
  let e := clamp01 (sig_errorsConsecutive params / 3) in
  let h := clamp01 (sig_hintsUsed params / 2) in
  let r := clamp01 (sig_retriesSameRound params / 2) in
  let t := clamp01 ((sig_latencySec params - 3) / (12 - 3)) in
  let s := clamp01 (sig_perseveration params / 2) in
  let F := weighted {| fc_e := e; fc_h := h; fc_r := r; fc_t := t; fc_s := s |} in
  {| value := Num.toFixed2 F;
     components := {| fc_e := e; fc_h := h; fc_r := r; fc_t := t; fc_s := s |} |}.

(** ** Data model *)

Inductive Level := easy | medium | hard.
Inductive ColorKey := rojo | azul | amarillo.
Inductive Feedback := idle | fb_correct | fb_wrong.
Inductive Action := keep | support | ease.
Inductive Source := backend | fallback.
Inductive Rule :=
  none | support_by_frustration | ease_by_frustration | levelup_by_streak.
Inductive Dir := up | down.

#[global] Instance Level_eq_dec : EqDecision Level.
Proof. solve_decision. Defined.
#[global] Instance ColorKey_eq_dec : EqDecision ColorKey.
Proof. solve_decision. Defined.
#[global] Instance Action_eq_dec : EqDecision Action.
Proof. solve_decision. Defined.

(** A swatch identifier is either one of the literal identifiers of the
    [SWATCHES] table or a generated one,
    [`${color}_${Math.random().toString(16).slice(2)}`], kept as the colour
    and the random number its suffix is printed from. *)
Inductive SwatchId :=
  | TableId (name : string)
  | FreshId (color : ColorKey) (rnd : Q).

Definition SwatchId_eqb (a b : SwatchId) : bool :=
  match a, b with
  | TableId x, TableId y => bool_decide (x = y)
  | FreshId c x, FreshId d y => bool_decide (c = d) && Qeq_bool x y
  | _, _ => false
  end.

Record Swatch := { sw_id : SwatchId; sw_label : ColorKey; sw_hex : string }.

(** [`${Date.now()}-${Math.random().toString(16).slice(2)}`] *)
Record RoundId := { rid_now : Z; rid_rnd : Q }.

Record Round := {
  rd_id : RoundId;
  rd_target : ColorKey;
  rd_level : Level;
  rd_options : list Swatch;
}.

Record Attempt := {
  a_roundId : RoundId;
  a_target : ColorKey;
  a_chosen : ColorKey;
  a_correct : bool;
  a_hintsUsed : Q;
  a_ts : Z;
  a_latencySec : Q;
  a_frustration : Q;
  a_frustrationComponents : Components;
  a_action : Action;
  a_source : Source;
  a_levelBefore : Level;
  a_levelAfter : Level;
  a_rule : Rule;
}.

Definition MAX_ATTEMPTS : nat := 100.

Definition SWATCHES (c : ColorKey) (l : Level) : list Swatch :=
  match c, l with
  | rojo, easy =>
      [ {| sw_id := TableId "rojo_base"; sw_label := rojo; sw_hex := "#FF5A5F" |} ]
  | rojo, medium =>
      [ {| sw_id := TableId "rojo_base"; sw_label := rojo; sw_hex := "#FF5A5F" |};
        {| sw_id := TableId "rojo_rosado"; sw_label := rojo; sw_hex := "#FF7AA2" |};
        {| sw_id := TableId "rojo_naranja"; sw_label := rojo; sw_hex := "#FF6B3D" |} ]
  | rojo, hard =>
      [ {| sw_id := TableId "rojo_base"; sw_label := rojo; sw_hex := "#FF5A5F" |};
        {| sw_id := TableId "rojo_coral"; sw_label := rojo; sw_hex := "#FF6F61" |};
        {| sw_id := TableId "rojo_salmon"; sw_label := rojo; sw_hex := "#FF7F7F" |} ]
  | azul, easy =>
      [ {| sw_id := TableId "azul_base"; sw_label := azul; sw_hex := "#3B82F6" |} ]
  | azul, medium =>
      [ {| sw_id := TableId "azul_base"; sw_label := azul; sw_hex := "#3B82F6" |};
        {| sw_id := TableId "azul_cielo"; sw_label := azul; sw_hex := "#60A5FA" |};
        {| sw_id := TableId "azul_profundo"; sw_label := azul; sw_hex := "#2563EB" |} ]
  | azul, hard =>
      [ {| sw_id := TableId "azul_base"; sw_label := azul; sw_hex := "#3B82F6" |};
        {| sw_id := TableId "azul_indigo"; sw_label := azul; sw_hex := "#4F46E5" |};
        {| sw_id := TableId "azul_marino"; sw_label := azul; sw_hex := "#1D4ED8" |} ]
  | amarillo, easy =>
      [ {| sw_id := TableId "amarillo_base"; sw_label := amarillo; sw_hex := "#FBBF24" |} ]
  | amarillo, medium =>
      [ {| sw_id := TableId "amarillo_base"; sw_label := amarillo; sw_hex := "#FBBF24" |};
        {| sw_id := TableId "amarillo_dorado"; sw_label := amarillo; sw_hex := "#F59E0B" |};
        {| sw_id := TableId "amarillo_claro"; sw_label := amarillo; sw_hex := "#FCD34D" |} ]
  | amarillo, hard =>
      [ {| sw_id := TableId "amarillo_base"; sw_label := amarillo; sw_hex := "#FBBF24" |};
        {| sw_id := TableId "amarillo_calido"; sw_label := amarillo; sw_hex := "#F4B400" |};
        {| sw_id := TableId "amarillo_mostaza"; sw_label := amarillo; sw_hex := "#DFAF2B" |} ]
  end.

Definition BASE_COLOR (c : ColorKey) : string :=
  match c with
  | rojo => "#FF3B30"
  | azul => "#007AFF"
  | amarillo => "#FFD60A"
  end.

(** ** The scripted world: [Math.random()] and [Date.now()] *)

(** The script: what the successive calls return. *)
Record World := {
  randoms : nat -> Q;   (* the results of Math.random(), in call order *)
  clock : nat -> Z;     (* the results of Date.now(), in ms, in call order *)
}.

(** How many calls of each have been made. *)
Record Cursor := { rcur : nat; ccur : nat }.

(** A computation reads the script, advances the cursors, and may stop with
    [None] when an array is read outside its bounds (JavaScript would carry
    [undefined] on, which no value of the declared types stands for). *)
Definition M (A : Type) : Type := World -> Cursor -> option (A * Cursor).

Definition ret {A} (a : A) : M A := fun _ k => Some (a, k).

Definition bind {A B} (c : M A) (f : A -> M B) : M B :=
  fun w k => match c w k with
             | Some (a, k') => f a w k'
             | None => None
             end.

Definition undefinedRead {A} : M A := fun _ _ => None.

Notation "x <- c ;; f" := (bind c (fun x => f))
  (at level 100, c at next level, right associativity).

Definition mathRandom : M Q :=
  fun w k => Some (randoms w (rcur k), {| rcur := S (rcur k); ccur := ccur k |}).

Definition dateNow : M Z :=
  fun w k => Some (clock w (ccur k), {| rcur := rcur k; ccur := S (ccur k) |}).

(** [Math.random()] returns a number in [0,1). *)
Definition randomsOk (w : World) : Prop := forall n, 0 <= randoms w n /\ randoms w n < 1.

(** [wp c w k post]: run on script [w] from cursors [k], the computation [c]
    returns, and its result and final cursors satisfy [post]. *)
Definition wp {A} (c : M A) (w : World) (k : Cursor) (post : A -> Cursor -> Prop) : Prop :=
  match c w k with
  | Some (a, k') => post a k'
  | None => False
  end.

(** [arr[i]] for an integer [i]. *)
Definition index {A} (arr : list A) (i : Z) : M A :=
  if (i <? 0)%Z then undefinedRead
  else match arr !! Z.to_nat i with
       | Some a => ret a
       | None => undefinedRead
       end.

Fixpoint mapM {A B} (f : A -> M B) (l : list A) : M (list B) :=
  match l with
  | [] => ret []
  | a :: l' => b <- f a ;; bs <- mapM f l' ;; ret (b :: bs)
  end.

(** ** Round Generator *)

(** [[a[i], a[j]] = [a[j], a[i]]]: [a[j]] and [a[i]] are read, then [a[i]]
    and [a[j]] are written, in that order. *)
Definition swap {A} (a : list A) (i : nat) (j : Z) : M (list A) :=
  y <- index a j ;;
  x <- index a (Z.of_nat i) ;;
  ret (<[Z.to_nat j := x]> (<[i := y]> a)).

(** The loop of [shuffle], from index [i] down to 1. *)
Fixpoint shuffle_from {A} (i : nat) (a : list A) : M (list A) :=
  match i with
  | O => ret a
  | S i' =>
      x <- mathRandom ;;
      a' <- swap a i (Num.floor (x * inject_Z (Z.of_nat i + 1))) ;;
      shuffle_from i' a'
  end.

Definition shuffle {A} (arr : list A) : M (list A) :=
  shuffle_from (length arr - 1) arr.

Definition pickOne {A} (arr : list A) : M A :=
  x <- mathRandom ;;
  index arr (Num.floor (x * inject_Z (Z.of_nat (length arr)))).

Definition makeBaseSwatch (color : ColorKey) : M Swatch :=
  x <- mathRandom ;;
  ret {| sw_id := FreshId color x; sw_label := color; sw_hex := BASE_COLOR color |}.

Definition all : list ColorKey := [rojo; azul; amarillo].

Definition candidatesFor (prevTarget : option ColorKey) : list ColorKey :=
  match prevTarget with
  | Some p => filter (fun c => c <> p) all
  | None => all
  end.

Definition makeRound (prevTarget : option ColorKey) (level : Level) : M Round :=
  let candidates := candidatesFor prevTarget in
  x <- mathRandom ;;
  target <- index candidates
              (Num.floor (x * inject_Z (Z.of_nat (length candidates)))) ;;
  correctSwatch <-
    (if decide (level = easy)
     then makeBaseSwatch target
     else picked <- pickOne (SWATCHES target level) ;;
          y <- mathRandom ;;
          ret {| sw_id := FreshId target y;
                 sw_label := sw_label picked;
                 sw_hex := sw_hex picked |}) ;;
  distractors <- mapM makeBaseSwatch (filter (fun c => c <> target) all) ;;
  options <- shuffle (correctSwatch :: distractors) ;;
  now <- dateNow ;;
  z <- mathRandom ;;
  ret {| rd_id := {| rid_now := now; rid_rnd := z |};
         rd_target := target;
         rd_level := level;
         rd_options := options |}.

(** ** Difficulty levels *)

Definition order : list Level := [easy; medium; hard].

(** [Array.prototype.indexOf]: the first position of [x], or -1. *)
Fixpoint indexOf {A} `{EqDecision A} (l : list A) (x : A) : Z :=
  match l with
  | [] => -1
  | y :: l' =>
      if decide (y = x) then 0
      else let k := indexOf l' x in if (k <? 0)%Z then -1 else (k + 1)%Z
  end.

(** The position read from [order] always lies within it, so the last branch
    is never taken. *)
Definition nextLevel (current : Level) (dir : Dir) : Level :=
  let idx := indexOf order current in
  let k := match dir with
           | up => Z.min (idx + 1) (Z.of_nat (length order) - 1)
           | down => Z.max (idx - 1) 0
           end in
  match order !! Z.to_nat k with
  | Some l => l
  | None => current
  end.

(** ** Decision Policy (the local fallback) *)

Record DecisionResult := {
  d_frustration : Frustration;
  d_action : Action;
  d_suggestedLevel : Level;
  d_nextHighFrustrationStreak : Q;
  d_nextSuccessStreak : Q;
}.

(** The intermediate values of the policy, named as in the source. *)
Definition isHigh (F : Q) : bool := Num.geb F (65 # 100).

Definition nextHigh (F highFrustrationStreak : Q) : Q :=
  if isHigh F then highFrustrationStreak + 1 else 0.

Definition policyAction (F highFrustrationStreak : Q) : Action :=
  if Num.ltb F (35 # 100) then keep
  else if Num.ltb F (65 # 100) then support
  else if Num.geb (nextHigh F highFrustrationStreak) 2 then ease else support.

(** The candidate success streak, before the level rules. *)
Definition candidateSuccess (correct : bool) (successStreak : Q) : Q :=
  if correct then successStreak + 1 else 0.

Definition localPolicy (frustration : Frustration) (level : Level)
    (highFrustrationStreak successStreak : Q) (correct : bool) : DecisionResult :=
  let action := policyAction (value frustration) highFrustrationStreak in
  let nextSuccess := candidateSuccess correct successStreak in
  (* the pair (suggestedLevel, nextSuccess) after the two level rules *)
  let updated :=
    if decide (action = ease) then (nextLevel level down, 0)
    else if Num.geb nextSuccess 3 then (nextLevel level up, 0)
    else (level, nextSuccess) in
  {| d_frustration := frustration;
     d_action := action;
     d_suggestedLevel := fst updated;
     d_nextHighFrustrationStreak :=
       if decide (action = ease) then 0
       else nextHigh (value frustration) highFrustrationStreak;
     d_nextSuccessStreak := snd updated |}.

(** The whole [catch] block: scorer, then policy. *)
Definition localDecision (sig : Signals) (level : Level)
    (highFrustrationStreak successStreak : Q) (correct : bool) : DecisionResult :=
  localPolicy (computeFrustration sig) level
    highFrustrationStreak successStreak correct.

(** ** Decision Gateway *)

(** A parsed JSON value; an object keeps its members as an association list
    read by its first binding of a key. *)
Unset Elimination Schemes.
Inductive json :=
  | JNull
  | JBool (b : bool)
  | JNum (q : Q)
  | JStr (s : string)
  | JArr (items : list json)
  | JObj (members : list (string * json)).
Set Elimination Schemes.

(** What the [try] block can see of the remote service. *)
Inductive Response :=
  | FetchRejected                          (* network error *)
  | Aborted                                (* the 800 ms timer fired *)
  | Replied (ok : bool) (body : option json).
      (* [body = None]: [res.json()] rejects, the body is not JSON *)

Fixpoint lookupMember (k : string) (members : list (string * json)) : option json :=
  match members with
  | [] => None
  | (k', v) :: rest => if decide (k' = k) then Some v else lookupMember k rest
  end.

(** [j.k] on a value other than [null]; [None] is [undefined]. *)
Definition getMember (j : json) (k : string) : option json :=
  match j with
  | JObj members => lookupMember k members
  | _ => None
  end.

Definition asNumber (o : option json) : option Q :=
  match o with Some (JNum q) => Some q | _ => None end.

Definition asAction (o : option json) : option Action :=
  match o with
  | Some (JStr str) =>
      if decide (str = "keep") then Some keep
      else if decide (str = "support") then Some support
      else if decide (str = "ease") then Some ease
      else None
  | _ => None
  end.

Definition asLevel (o : option json) : option Level :=
  match o with
  | Some (JStr str) =>
      if decide (str = "easy") then Some easy
      else if decide (str = "medium") then Some medium
      else if decide (str = "hard") then Some hard
      else None
  | _ => None
  end.

Definition asComponents (o : option json) : option Components :=
  match o with
  | Some c =>
      e ← asNumber (getMember c "e");
      h ← asNumber (getMember c "h");
      r ← asNumber (getMember c "r");
      t ← asNumber (getMember c "t");
      s ← asNumber (getMember c "s");
      Some {| fc_e := e; fc_h := h; fc_r := r; fc_t := t; fc_s := s |}
  | None => None
  end.

Definition asFrustration (o : option json) : option Frustration :=
  match o with
  | Some f =>
      v ← asNumber (getMember f "value");
      c ← asComponents (getMember f "components");
      Some {| value := v; components := c |}
  | None => None
  end.

(** The payloads that inhabit the type declared for [decision]. *)
Definition asDecision (j : json) : option DecisionResult :=
  f ← asFrustration (getMember j "frustration");
  a ← asAction (getMember j "action");
  l ← asLevel (getMember j "suggestedLevel");
  hs ← asNumber (getMember j "nextHighFrustrationStreak");
  ss ← asNumber (getMember j "nextSuccessStreak");
  Some {| d_frustration := f; d_action := a; d_suggestedLevel := l;
          d_nextHighFrustrationStreak := hs; d_nextSuccessStreak := ss |}.

(** What [decision] and [source] hold after the [try]/[catch]: the remote
    JSON as it came, or the local decision. *)
Inductive Gateway :=
  | FromBackend (payload : json)
  | FromFallback (d : DecisionResult).

Definition gateway (resp : Response) (local : DecisionResult) : Gateway :=
  match resp with
  | Replied true (Some j) => FromBackend j
  | _ => FromFallback local
  end.

Definition gatewaySource (g : Gateway) : Source :=
  match g with FromBackend _ => backend | FromFallback _ => fallback end.

(** ** Attempt log *)

(** [[a, ...prev].slice(0, MAX_ATTEMPTS)] *)
Definition appendAttempt (a : Attempt) (prev : list Attempt) : list Attempt :=
  take MAX_ATTEMPTS (a :: prev).

(** ** Session State Machine *)

Record State := {
  decisionSource : Source;
  level : Level;
  round : option Round;
  feedback : Feedback;
  lastChosen : option ColorKey;
  successStreak : Q;
  pendingLevelUp : bool;
  highFrustrationStreak : Q;
  hintOn : bool;
  hintsUsed : Q;
  attempts : list Attempt;
  roundStartTs : Z;
  errorsConsecutive : Q;
  retriesSameRound : Q;
  lastWrongChoice : option SwatchId;
  perseveration : Q;
}.

(** The callbacks [onPick] leaves behind with [setTimeout]. *)
Inductive Timer :=
  | NoTimer
  | HintOffAfter400
  | NextRoundAfter700 (prevTarget : ColorKey) (suggestedLevel : Level).

(** How a run of [onPick] ends.  [Threw]: a [TypeError] leaves the handler,
    after the setters recorded in [st].  [Unshaped]: the handler goes on with a
    remote payload that does not inhabit the declared type of [decision]; the
    typed model follows it no further. *)
Inductive Outcome :=
  | Stepped (st : State) (timer : Timer)
  | Threw (st : State)
  | Unshaped (st : State) (payload : json).

(** [lastWrongChoice === swatch.id] *)
Definition sameAsLastWrong (lastWrongChoice : option SwatchId) (swatch : Swatch) : bool :=
  match lastWrongChoice with
  | Some i => SwatchId_eqb i (sw_id swatch)
  | None => false
  end.

(** The local counters of [onPick] after the metrics block. *)
Definition nextErrorsConsecutive (correct : bool) (st : State) : Q :=
  if correct then 0 else errorsConsecutive st + 1.

Definition nextRetriesSameRound (correct : bool) (st : State) : Q :=
  if correct then 0 else retriesSameRound st + 1.

Definition nextPerseveration (correct : bool) (swatch : Swatch) (st : State) : Q :=
  if correct then 0
  else if sameAsLastWrong (lastWrongChoice st) swatch then perseveration st + 1
  else perseveration st.

(** The signals handed to the decision step. *)
Definition signalsOf (correct : bool) (swatch : Swatch) (latencySec : Q)
    (st : State) : Signals :=
  {| sig_errorsConsecutive := nextErrorsConsecutive correct st;
     sig_hintsUsed := hintsUsed st;
     sig_retriesSameRound := nextRetriesSameRound correct st;
     sig_latencySec := latencySec;
     sig_perseveration := nextPerseveration correct swatch st |}.

(** The state once the setters that precede the decision have run. *)
Definition afterMetrics (correct : bool) (swatch : Swatch) (src : Source)
    (st : State) : State :=
  {| decisionSource := src;
     level := level st;
     round := round st;
     feedback := if correct then fb_correct else fb_wrong;
     lastChosen := Some (sw_label swatch);
     successStreak := successStreak st;
     pendingLevelUp := pendingLevelUp st;
     highFrustrationStreak := highFrustrationStreak st;
     hintOn := hintOn st;
     hintsUsed := hintsUsed st;
     attempts := attempts st;
     roundStartTs := roundStartTs st;
     errorsConsecutive := nextErrorsConsecutive correct st;
     retriesSameRound := nextRetriesSameRound correct st;
     lastWrongChoice :=
       if correct then None
       else if sameAsLastWrong (lastWrongChoice st) swatch then lastWrongChoice st
       else Some (sw_id swatch);
     perseveration := nextPerseveration correct swatch st |}.

Definition ruleOf (action : Action) (suggestedLevel level : Level) : Rule :=
  match action with
  | support => support_by_frustration
  | ease => ease_by_frustration
  | keep => if decide (suggestedLevel <> level) then levelup_by_streak else none
  end.

Definition attemptOf (rnd : Round) (swatch : Swatch) (correct : bool)
    (latencySec : Q) (ts : Z) (d : DecisionResult) (src : Source) (st : State) : Attempt :=
  {| a_roundId := rd_id rnd;
     a_target := rd_target rnd;
     a_chosen := sw_label swatch;
     a_correct := correct;
     a_hintsUsed := hintsUsed st;
     a_ts := ts;
     a_latencySec := latencySec;
     a_frustration := value (d_frustration d);
     a_frustrationComponents := components (d_frustration d);
     a_action := d_action d;
     a_source := src;
     a_levelBefore := level st;
     a_levelAfter := d_suggestedLevel d;
     a_rule := ruleOf (d_action d) (d_suggestedLevel d) (level st) |}.

(** Steps 2 and 3 of [onPick]: the returned streaks and level are applied and
    the attempt is logged.  [st] is the state the handler closed over, [st1]
    the state after the metrics block. *)
Definition applyDecision (a : Attempt) (d : DecisionResult) (st st1 : State) : State :=
  {| decisionSource := decisionSource st1;
     level := if decide (d_suggestedLevel d <> level st)
              then d_suggestedLevel d else level st1;
     round := round st1;
     feedback := feedback st1;
     lastChosen := lastChosen st1;
     successStreak := d_nextSuccessStreak d;
     pendingLevelUp := pendingLevelUp st1;
     highFrustrationStreak := d_nextHighFrustrationStreak d;
     hintOn := if decide (d_action d = support) then true else hintOn st1;
     hintsUsed := hintsUsed st1;
     attempts := appendAttempt a (attempts st1);
     roundStartTs := roundStartTs st1;
     errorsConsecutive := errorsConsecutive st1;
     retriesSameRound := retriesSameRound st1;
     lastWrongChoice := lastWrongChoice st1;
     perseveration := perseveration st1 |}.

(** A fresh round is installed and the per-trial counters are reset: the body
    shared by the [ease] branch and by the 700 ms callback. *)
Definition startRound (prevTarget : ColorKey) (lvl : Level) (st : State) : M State :=
  newRound <- makeRound (Some prevTarget) lvl ;;
  now <- dateNow ;;
  ret {| decisionSource := decisionSource st;
         level := level st;
         round := Some newRound;
         feedback := idle;
         lastChosen := None;
         successStreak := successStreak st;
         pendingLevelUp := pendingLevelUp st;
         highFrustrationStreak := highFrustrationStreak st;
         hintOn := false;
         hintsUsed := 0;
         attempts := attempts st;
         roundStartTs := now;
         errorsConsecutive := 0;
         retriesSameRound := 0;
         lastWrongChoice := None;
         perseveration := 0 |}.

(** Step 4 of [onPick]. *)
Definition advance (rnd : Round) (correct : bool) (d : DecisionResult) (st2 : State)
    : M Outcome :=
  if decide (d_action d = ease) then
    st3 <- startRound (rd_target rnd) (d_suggestedLevel d) st2 ;;
    ret (Stepped st3 NoTimer)
  else if correct then
    ret (Stepped st2 (NextRoundAfter700 (rd_target rnd) (d_suggestedLevel d)))
  else
    ret (Stepped st2 HintOffAfter400).

(** [Math.round((Date.now() - roundStartTs) / 1000)] *)
Definition latencyOf (now roundStartTs : Z) : Q :=
  inject_Z (Num.round (inject_Z (now - roundStartTs) / 1000)).

Definition onPick (swatch : Swatch) (resp : Response) (st : State) : M Outcome :=
  match round st with
  | None => ret (Stepped st NoTimer)
  | Some rnd =>
      now <- dateNow ;;
      let latencySec := latencyOf now (roundStartTs st) in
      let correct := bool_decide (sw_label swatch = rd_target rnd) in
      let local :=
        localDecision (signalsOf correct swatch latencySec st) (level st)
          (highFrustrationStreak st) (successStreak st) correct in
      let g := gateway resp local in
      let st1 := afterMetrics correct swatch (gatewaySource g) st in
      let continue (d : DecisionResult) : M Outcome :=
        ts <- dateNow ;;
        let a := attemptOf rnd swatch correct latencySec ts d (gatewaySource g) st in
        advance rnd correct d (applyDecision a d st st1) in
      match g with
      | FromFallback d => continue d
      | FromBackend JNull => ret (Threw st1)   (* destructuring [null] *)
      | FromBackend j =>
          match asDecision j with
          | Some d => continue d
          | None => ret (Unshaped st1 j)
          end
      end
  end.

(** The callbacks, when their timers fire. *)
Definition runTimer (timer : Timer) (st : State) : M State :=
  match timer with
  | NoTimer => ret st
  | HintOffAfter400 =>
      ret {| decisionSource := decisionSource st;
             level := level st;
             round := round st;
             feedback := feedback st;
             lastChosen := lastChosen st;
             successStreak := successStreak st;
             pendingLevelUp := pendingLevelUp st;
             highFrustrationStreak := highFrustrationStreak st;
             hintOn := false;
             hintsUsed := hintsUsed st;
             attempts := attempts st;
             roundStartTs := roundStartTs st;
             errorsConsecutive := errorsConsecutive st;
             retriesSameRound := retriesSameRound st;
             lastWrongChoice := lastWrongChoice st;
             perseveration := perseveration st |}
  | NextRoundAfter700 prevTarget lvl => startRound prevTarget lvl st
  end.

(** ** Specification vocabulary *)

(** The option built by [makeBaseSwatch]. *)
Definition isBase (c : ColorKey) (sw : Swatch) : Prop :=
  sw_label sw = c /\ sw_hex sw = BASE_COLOR c
  /\ exists x, sw_id sw = FreshId c x.

(** What [makeRound] returns: the target is the candidate the first random
    number points at, and the options are a permutation of the correct swatch
    followed by one base swatch for each other colour. *)
Definition roundSpec (prev : option ColorKey) (lvl : Level) (x : Q) (rd : Round) : Prop :=
  let candidates := candidatesFor prev in
  candidates !! Z.to_nat (Num.floor (x * inject_Z (Z.of_nat (length candidates))))
    = Some (rd_target rd)
  /\ rd_level rd = lvl
  /\ exists correctSwatch distractors,
       rd_options rd ≡ₚ correctSwatch :: distractors
       /\ sw_label correctSwatch = rd_target rd
       /\ (lvl = easy -> isBase (rd_target rd) correctSwatch)
       /\ (lvl <> easy ->
           exists picked, picked ∈ SWATCHES (rd_target rd) lvl
                          /\ sw_hex correctSwatch = sw_hex picked)
       /\ Forall2 isBase (filter (fun c => c <> rd_target rd) all) distractors.

(** The responses the [try] block does not survive: network error, timeout,
    non-success status, or a body that is not JSON. *)
Definition failed (resp : Response) : Prop :=
  match resp with
  | Replied true (Some _) => False
  | _ => True
  end.

(** The log at session start: empty, or the persisted attempts cut to the
    cap ([loaded.attempts.slice(0, MAX_ATTEMPTS)]). *)
Definition loadedAttempts (loaded : option (list Attempt)) : list Attempt :=
  match loaded with
  | Some stored => take MAX_ATTEMPTS stored
  | None => []
  end.

(** The log after the records [rs] have been appended, the first of [rs]
    first. *)
Definition appendAll (rs : list Attempt) (log : list Attempt) : list Attempt :=
  foldl (fun l a => appendAttempt a l) log rs.

(** [onPick] completes with the decision [d] from source [src]: it returns,
    the source is recorded, the attempt at the head of the log carries the
    decision, and the level and both streaks are the returned ones. *)
Definition completesWith (swatch : Swatch) (resp : Response) (st : State)
    (w : World) (k : Cursor) (d : DecisionResult) (src : Source) : Prop :=
  exists st' tm k' a,
    onPick swatch resp st w k = Some (Stepped st' tm, k')
    /\ decisionSource st' = src
    /\ attempts st' !! 0%nat = Some a
    /\ (a_source a = src
        /\ a_frustration a = value (d_frustration d)
        /\ a_frustrationComponents a = components (d_frustration d)
        /\ a_action a = d_action d
        /\ a_levelAfter a = d_suggestedLevel d)
    /\ level st' = d_suggestedLevel d
    /\ successStreak st' = d_nextSuccessStreak d
    /\ highFrustrationStreak st' = d_nextHighFrustrationStreak d.

(** ** Hints, reset, mount and the effects *)

#[global] Instance Source_eq_dec : EqDecision Source.
Proof. solve_decision. Defined.







(** ** What the page shows *)

(** [round.options.find(o => o.label === round.target)?.hex ?? '#000'] *)
Definition instructionColor (rd : Round) : string :=
  match list_find (fun o => sw_label o = rd_target rd) (rd_options rd) with
  | Some (_, o) => sw_hex o
  | None => "#000"
  end.

(** [hintOn && isTarget], for one option. *)
Definition showHint (st : State) (rd : Round) (sw : Swatch) : bool :=
  hintOn st && bool_decide (sw_label sw = rd_target rd).

Record Stats := { s_total : nat; s_correct : nat; s_accuracy : Z }.

(** A count, as a number. *)
Definition countQ (n : nat) : Q := inject_Z (Z.of_nat n).

(** [Math.round((part / total) * 100)] *)
Definition percent (part total : nat) : Z :=
  Num.round ((countQ part / countQ total) * 100).

Definition stats (attempts : list Attempt) : Stats :=
  let total := length attempts in
  let correct := length (filter (fun a => a_correct a = true) attempts) in
  {| s_total := total;
     s_correct := correct;
     s_accuracy := if decide (total = 0%nat) then 0%Z else percent correct total |}.

Record Dash := {
  dash_total : nat;
  dash_accuracy : Z;
  dash_avgLatency : Q;
  dash_avgFrustration : Q;
  dash_supportPct : Z;
  dash_easePct : Z;
  dash_hintAvg : Q;
  dash_backendPct : Z;
}.

(** [attempts.reduce((sum, a) => sum + f(a), 0)] *)
Definition sumOf (f : Attempt -> Q) (attempts : list Attempt) : Q :=
  foldl (fun sum a => sum + f a) 0 attempts.

(** [Math.round((sum / total) * scale) / scale] *)
Definition roundedMean (sum : Q) (total : nat) (scale : Z) : Q :=
  inject_Z (Num.round ((sum / countQ total) * inject_Z scale)) / inject_Z scale.

Definition dash (attempts : list Attempt) : Dash :=
  let total := length attempts in
  if decide (total = 0%nat) then
    {| dash_total := 0; dash_accuracy := 0; dash_avgLatency := 0;
       dash_avgFrustration := 0; dash_supportPct := 0; dash_easePct := 0;
       dash_hintAvg := 0; dash_backendPct := 0 |}
  else
    let correctCount := length (filter (fun a => a_correct a = true) attempts) in
    let supportCount := length (filter (fun a => a_action a = support) attempts) in
    let easeCount := length (filter (fun a => a_action a = ease) attempts) in
    let backendCount := length (filter (fun a => a_source a = backend) attempts) in
    {| dash_total := total;
       dash_accuracy := percent correctCount total;
       dash_avgLatency := roundedMean (sumOf a_latencySec attempts) total 10;
       dash_avgFrustration := roundedMean (sumOf a_frustration attempts) total 100;
       dash_supportPct := percent supportCount total;
       dash_easePct := percent easeCount total;
       dash_hintAvg := roundedMean (sumOf a_hintsUsed attempts) total 10;
       dash_backendPct := percent backendCount total |}.

(** ** Persistence *)

Definition STORAGE_VERSION : Q := 1.

(** The storage slot as [safeLoad] meets it: [getItem] throws, the key is
    missing, or it holds a text, which [JSON.parse] turns into a value or
    rejects ([None]; the empty text is rejected too). *)
Inductive Slot :=
  | SlotThrows
  | SlotMissing
  | SlotText (parsed : option json).

(** [!j] is false. *)
Definition truthy (j : json) : bool :=
  match j with
  | JNull => false
  | JBool b => b
  | JNum q => negb (Qeq_bool q 0)
  | JStr str => negb (bool_decide (str = ""))
  | JArr _ | JObj _ => true
  end.

Definition safeLoad (slot : Slot) : option json :=
  match slot with
  | SlotText (Some parsed) =>
      if negb (truthy parsed) then None
      else match getMember parsed "v" with
           | Some (JNum v) =>
               if Qeq_bool v STORAGE_VERSION then
                 match getMember parsed "attempts" with
                 | Some (JArr _) => Some parsed
                 | _ => None
                 end
               else None
           | _ => None
           end
  | _ => None
  end.

(** [loaded.attempts.slice(0, MAX_ATTEMPTS)] when [safeLoad] returns a value;
    [None] leaves the log as it is. *)
Definition loadEffect (slot : Slot) : option (list json) :=
  match safeLoad slot with
  | Some loaded =>
      match getMember loaded "attempts" with
      | Some (JArr items) => Some (take MAX_ATTEMPTS items)
      | _ => None
      end
  | None => None
  end.

(** [safeSave]: the slot then parses back to the data, since [JSON.parse]
    inverts [JSON.stringify]; when [setItem] throws the slot is left as it
    was. *)
Definition safeSave (data : json) (setItemThrows : bool) (slot : Slot) : Slot :=
  if setItemThrows then slot else SlotText (Some data).

(** What the save effect hands to [safeSave], for the log serialised as
    [items]. *)
Definition persisted (items : list json) : json :=
  JObj [("v", JNum STORAGE_VERSION); ("attempts", JArr (take MAX_ATTEMPTS items))].

(** ** Sessions *)



(** A round as [makeRound] builds them: three options, one per colour, the
    one with the target's label being the only correct one. *)
Definition roundOk (rd : Round) : Prop :=
  sw_label <$> rd_options rd ≡ₚ all.



(** ** A concrete session, for the worked examples *)

Module Sample.

(** Every [Math.random()] returns 1/2; the clock advances one second per
    reading. *)
Definition w : World :=
  {| randoms := fun _ => 1 # 2; clock := fun n => (1000 * Z.of_nat n)%Z |}.

Definition k : Cursor := {| rcur := 0; ccur := 0 |}.

Definition rojo_sw : Swatch :=
  {| sw_id := FreshId rojo (1 # 4); sw_label := rojo; sw_hex := BASE_COLOR rojo |}.
Definition azul_sw : Swatch :=
  {| sw_id := FreshId azul (1 # 8); sw_label := azul; sw_hex := BASE_COLOR azul |}.
Definition amarillo_sw : Swatch :=
  {| sw_id := FreshId amarillo (3 # 8); sw_label := amarillo;
     sw_hex := BASE_COLOR amarillo |}.

Definition rnd : Round :=
  {| rd_id := {| rid_now := 0; rid_rnd := 1 # 16 |};
     rd_target := rojo;
     rd_level := easy;
     rd_options := [azul_sw; rojo_sw; amarillo_sw] |}.

(** The state at session start, on the round [rnd]. *)
Definition st : State :=
  {| decisionSource := fallback;
     level := easy;
     round := Some rnd;
     feedback := idle;
     lastChosen := None;
     successStreak := 0;
     pendingLevelUp := false;
     highFrustrationStreak := 0;
     hintOn := false;
     hintsUsed := 0;
     attempts := [];
     roundStartTs := 0;
     errorsConsecutive := 0;
     retriesSameRound := 0;
     lastWrongChoice := None;
     perseveration := 0 |}.

Definition signals (e h r t s : Q) : Signals :=
  {| sig_errorsConsecutive := e; sig_hintsUsed := h; sig_retriesSameRound := r;
     sig_latencySec := t; sig_perseveration := s |}.

(** A frustration record with the given value. *)
Definition valued (F : Q) : Frustration :=
  {| value := F;
     components := {| fc_e := 0; fc_h := 0; fc_r := 0; fc_t := 0; fc_s := 0 |} |}.

Definition attempt (n : Z) : Attempt :=
  attemptOf rnd rojo_sw true 0 n
    (localDecision (signals 0 0 0 0 0) easy 0 0 true) fallback st.

End Sample.

(** ** Further vocabulary *)

(** Every raw signal of [p] is at most the same signal of [p']. *)
Definition signalsLe (p p' : Signals) : Prop :=
  sig_errorsConsecutive p <= sig_errorsConsecutive p'
  /\ sig_hintsUsed p <= sig_hintsUsed p'
  /\ sig_retriesSameRound p <= sig_retriesSameRound p'
  /\ sig_latencySec p <= sig_latencySec p'
  /\ sig_perseveration p <= sig_perseveration p'.

(** The identifier of an option starts with its own label. *)
Definition ownId (o : Swatch) : Prop := exists y, sw_id o = FreshId (sw_label o) y.

(** The state [startRound] returns, given the round and the clock reading. *)
Definition started (r : Round) (now : Z) (st : State) : State :=
  {| decisionSource := decisionSource st;
     level := level st;
     round := Some r;
     feedback := idle;
     lastChosen := None;
     successStreak := successStreak st;
     pendingLevelUp := pendingLevelUp st;
     highFrustrationStreak := highFrustrationStreak st;
     hintOn := false;
     hintsUsed := 0;
     attempts := attempts st;
     roundStartTs := now;
     errorsConsecutive := 0;
     retriesSameRound := 0;
     lastWrongChoice := None;
     perseveration := 0 |}.

(** ** A frustrated moment of the sample session *)

Module Frustrated.

(** Twelve seconds into the round, after two wrong picks of the blue option,
    two hints, and one trial of high frustration. *)
Definition st : State :=
  {| decisionSource := fallback;
     level := medium;
     round := Some Sample.rnd;
     feedback := fb_wrong;
     lastChosen := Some azul;
     successStreak := 0;
     pendingLevelUp := false;
     highFrustrationStreak := 1;
     hintOn := false;
     hintsUsed := 2;
     attempts := [];
     roundStartTs := (-12000)%Z;
     errorsConsecutive := 2;
     retriesSameRound := 2;
     lastWrongChoice := Some (sw_id Sample.azul_sw);
     perseveration := 1 |}.

End Frustrated.

(** * Properties *)

(** ** Numbers *)

Lemma ltb_lt a b : Num.ltb a b = true <-> a < b.
Proof.
  unfold Num.ltb. rewrite negb_true_iff, <- not_true_iff_false, Qle_bool_iff.
  split; [apply Qnot_le_lt | apply Qlt_not_le].
Qed.

Lemma ltb_ge a b : Num.ltb a b = false <-> b <= a.
Proof. unfold Num.ltb. rewrite negb_false_iff. apply Qle_bool_iff. Qed.

Lemma geb_ge a b : Num.geb a b = true <-> b <= a.
Proof. apply Qle_bool_iff. Qed.

Lemma geb_lt a b : Num.geb a b = false <-> a < b.
Proof.
  unfold Num.geb. rewrite <- not_true_iff_false, Qle_bool_iff.
  split; [apply Qnot_le_lt | apply Qlt_not_le].
Qed.

(** Division by a literal is multiplication by its inverse, which [lra]
    understands. *)
Lemma div100 (x : Q) : x / 100 == x * (1 # 100).
Proof. reflexivity. Qed.

Lemma toFixed2_nonneg x : 0 <= x -> Num.toFixed2 x = inject_Z (Num.hundredths x) / 100.
Proof.
  intros Hx. unfold Num.toFixed2.
  by replace (Num.ltb x 0) with false by (symmetry; by apply ltb_ge).
Qed.


Lemma hundredths_range x : 0 <= x -> x <= 1 -> (0 <= Num.hundredths x <= 100)%Z.
Proof.
  intros H0 H1. unfold Num.hundredths. split.
  - apply (Z.le_trans _ (Qfloor 0)); [done | apply Qfloor_resp_le; lra].
  - apply (Z.le_trans _ (Qfloor (201 # 2))); [apply Qfloor_resp_le; lra | done].
Qed.

Lemma toFixed2_range x : 0 <= x -> x <= 1 -> 0 <= Num.toFixed2 x /\ Num.toFixed2 x <= 1.
Proof.
  intros H0 H1. rewrite (toFixed2_nonneg _ H0), div100.
  destruct (hundredths_range x H0 H1) as [Hl Hu].
  rewrite Zle_Qle in Hl, Hu.
  change (inject_Z 0) with 0 in Hl. change (inject_Z 100) with 100 in Hu.
  set (y := inject_Z _) in *. lra.
Qed.


(** ** Frustration Scorer *)

Lemma clamp01_range v : 0 <= clamp01 v /\ clamp01 v <= 1.
Proof.
  unfold clamp01, clamp.
  destruct (Q.max_spec 0 (Qmin 1 v)) as [[? ->] | [? ->]];
    destruct (Q.min_spec 1 v) as [[? E] | [? E]]; rewrite ?E in *; lra.
Qed.

Lemma weighted_range c :
  0 <= fc_e c <= 1 -> 0 <= fc_h c <= 1 -> 0 <= fc_r c <= 1 ->
  0 <= fc_t c <= 1 -> 0 <= fc_s c <= 1 ->
  0 <= weighted c /\ weighted c <= 1.
Proof. unfold weighted. intros [] [] [] [] []. split; lra. Qed.

Lemma computeFrustration_weighted_range p :
  0 <= weighted (components (computeFrustration p))
  /\ weighted (components (computeFrustration p)) <= 1.
Proof.
  apply weighted_range; cbn [components computeFrustration fc_e fc_h fc_r fc_t fc_s];
    apply clamp01_range.
Qed.


(** ** Difficulty levels *)

(** One step down and one step up, clamped at the ends. *)
Lemma nextLevel_down l :
  nextLevel l down = match l with easy => easy | medium => easy | hard => medium end.
Proof. by destruct l. Qed.

Lemma nextLevel_up l :
  nextLevel l up = match l with easy => medium | medium => hard | hard => hard end.
Proof. by destruct l. Qed.

(** ** Decision Policy *)

Section Policy.
Variables (frustration : Frustration) (lvl : Level).
Variables (hfs ss : Q) (correct : bool).

Let F := value frustration.
Let d := localPolicy frustration lvl hfs ss correct.

Lemma policy_action : d_action d = policyAction F hfs.
Proof. reflexivity. Qed.

Lemma policyAction_keep : F < 35 # 100 -> policyAction F hfs = keep.
Proof. intros H. unfold policyAction. by apply ltb_lt in H as ->. Qed.

Lemma policyAction_support :
  35 # 100 <= F -> F < 65 # 100 -> policyAction F hfs = support.
Proof.
  intros H1 H2. unfold policyAction.
  apply ltb_ge in H1 as ->. by apply ltb_lt in H2 as ->.
Qed.

Lemma policyAction_high :
  65 # 100 <= F ->
  policyAction F hfs = if Num.geb (hfs + 1) 2 then ease else support.
Proof.
  intros H. unfold policyAction, nextHigh, isHigh.
  assert (35 # 100 <= F) as H' by lra.
  apply ltb_ge in H' as ->. pose proof H as Hge.
  apply ltb_ge in H as ->. by apply geb_ge in Hge as ->.
Qed.

Lemma policyAction_ease_high : policyAction F hfs = ease -> 65 # 100 <= F.
Proof.
  unfold policyAction.
  destruct (Num.ltb F (35 # 100)); [done |].
  destruct (Num.ltb F (65 # 100)) eqn:E; [done |]. intros _. by apply ltb_ge.
Qed.

Lemma nextHigh_low : F < 65 # 100 -> nextHigh F hfs = 0.
Proof. intros H. unfold nextHigh, isHigh. by apply geb_lt in H as ->. Qed.

Lemma nextHigh_high : 65 # 100 <= F -> nextHigh F hfs = hfs + 1.
Proof. intros H. unfold nextHigh, isHigh. by apply geb_ge in H as ->. Qed.
End Policy.

(** C2. For every frustration value [F] and prior streak [h] the local
    policy resolves [keep] when [F < 0.35], [support] when
    [0.35 <= F < 0.65], and when [F >= 0.65] it resolves [ease] if
    [h + 1 >= 2] and [support] otherwise.  (The bound [h >= 0] is
    not needed.) *)
Theorem localPolicy_action (frustration : Frustration) (lvl : Level)
    (h ss : Q) (correct : bool) :
  let F := value frustration in
  let action := d_action (localPolicy frustration lvl h ss correct) in
  (F < 35 # 100 -> action = keep)
  /\ (35 # 100 <= F -> F < 65 # 100 -> action = support)
  /\ (65 # 100 <= F -> 2 <= h + 1 -> action = ease)
  /\ (65 # 100 <= F -> h + 1 < 2 -> action = support).
Proof.
  cbn zeta. rewrite policy_action. repeat split.
  - apply policyAction_keep.
  - apply policyAction_support.
  - intros HF Hh. rewrite policyAction_high by done. by apply geb_ge in Hh as ->.
  - intros HF Hh. rewrite policyAction_high by done. by apply geb_lt in Hh as ->.
Qed.

(** C3. The returned [nextHighFrustrationStreak] is 0 whenever [F < 0.65] or
    the resolved action is [ease], and is the previous streak plus 1
    whenever [F >= 0.65] and the resolved action is not [ease]. *)
Theorem localPolicy_nextHighFrustrationStreak (frustration : Frustration)
    (lvl : Level) (h ss : Q) (correct : bool) :
  let F := value frustration in
  let d := localPolicy frustration lvl h ss correct in
  (F < 65 # 100 \/ d_action d = ease -> d_nextHighFrustrationStreak d = 0)
  /\ (65 # 100 <= F -> d_action d <> ease ->
      d_nextHighFrustrationStreak d = h + 1).
Proof.
  cbn zeta. unfold localPolicy.
  set (action := policyAction _ _).
  destruct (decide (action = ease)) as [Ha | Ha]; cbn.
  - split; [done |]. intros _ Hne. by rewrite Ha in Hne.
  - split.
    + intros [HF | He]; [by apply nextHigh_low | by rewrite He in Ha].
    + intros HF _. by apply nextHigh_high.
Qed.

(** C4. The candidate success streak is the previous streak plus 1 on a
    correct trial and 0 on an incorrect one.  If the action is [ease] the
    suggested level is one step down (clamped at [easy]) and
    [nextSuccessStreak] is 0; otherwise, if the candidate is at least 3, the
    suggested level is one step up (clamped at [hard]) and [nextSuccessStreak]
    is 0; otherwise the level is unchanged and [nextSuccessStreak] is the
    candidate. *)
Theorem localPolicy_successStreak (frustration : Frustration) (lvl : Level)
    (h ss : Q) (correct : bool) :
  let d := localPolicy frustration lvl h ss correct in
  let candidate := candidateSuccess correct ss in
  let oneDown := match lvl with easy => easy | medium => easy | hard => medium end in
  let oneUp := match lvl with easy => medium | medium => hard | hard => hard end in
  candidate = (if correct then ss + 1 else 0)
  /\ (d_action d = ease ->
      d_suggestedLevel d = oneDown /\ d_nextSuccessStreak d = 0)
  /\ (d_action d <> ease -> 3 <= candidate ->
      d_suggestedLevel d = oneUp /\ d_nextSuccessStreak d = 0)
  /\ (d_action d <> ease -> candidate < 3 ->
      d_suggestedLevel d = lvl /\ d_nextSuccessStreak d = candidate).
Proof.
  cbn zeta. unfold localPolicy.
  set (action := policyAction _ _). set (candidate := candidateSuccess _ _).
  split; [done |].
  destruct (decide (action = ease)) as [Ha | Ha]; cbn.
  - split; [intros _; by rewrite nextLevel_down |]. split; intros Hne; by rewrite Ha in Hne.
  - split; [intros He; by rewrite He in Ha |].
    split; intros _ Hc.
    + apply geb_ge in Hc as ->. cbn. by rewrite nextLevel_up.
    + apply geb_lt in Hc as ->. by cbn.
Qed.

(** ** The world monad *)

Section Wp.
Context {A B : Type}.
Implicit Types (w : World) (k : Cursor).

Lemma wp_ret (a : A) w k (post : A -> Cursor -> Prop) :
  post a k -> wp (ret a) w k post.
Proof. done. Qed.

Lemma wp_bind (c : M A) (f : A -> M B) w k (post : B -> Cursor -> Prop) :
  wp c w k (fun a k' => wp (f a) w k' post) -> wp (bind c f) w k post.
Proof. unfold wp, bind. by destruct (c w k) as [[a k'] |]. Qed.

Lemma wp_mono (c : M A) w k (post post' : A -> Cursor -> Prop) :
  wp c w k post -> (forall a k', post a k' -> post' a k') -> wp c w k post'.
Proof. unfold wp. destruct (c w k) as [[a k'] |]; [auto | done]. Qed.

Lemma wp_run (c : M A) w k (post : A -> Cursor -> Prop) :
  wp c w k post <-> exists a k', c w k = Some (a, k') /\ post a k'.
Proof.
  unfold wp. split.
  - destruct (c w k) as [[a k'] |]; [eauto | done].
  - by intros (a & k' & -> & H).
Qed.

Lemma wp_index (arr : list A) (i : Z) (a : A) w k (post : A -> Cursor -> Prop) :
  (0 <= i)%Z -> arr !! Z.to_nat i = Some a -> post a k ->
  wp (index arr i) w k post.
Proof.
  intros Hi Ha Hp. unfold wp, index.
  destruct (Z.ltb_spec i 0); [lia |]. by rewrite Ha.
Qed.
End Wp.

Lemma wp_mathRandom w k (post : Q -> Cursor -> Prop) :
  post (randoms w (rcur k)) {| rcur := S (rcur k); ccur := ccur k |} ->
  wp mathRandom w k post.
Proof. done. Qed.

Lemma wp_dateNow w k (post : Z -> Cursor -> Prop) :
  post (clock w (ccur k)) {| rcur := rcur k; ccur := S (ccur k) |} ->
  wp dateNow w k post.
Proof. done. Qed.

(** ** Random indices *)

Lemma Qfloor_unique (y : Q) (z : Z) :
  Qfloor y = z <-> inject_Z z <= y /\ y < inject_Z z + 1.
Proof.
  split.
  - intros <-. split; [apply Qfloor_le |].
    pose proof (Qlt_floor y) as H. by rewrite inject_Z_plus in H.
  - intros [Hl Hu].
    assert (z <= Qfloor y)%Z.
    { rewrite <- (Qfloor_Z z). by apply Qfloor_resp_le. }
    assert (Qfloor y < z + 1)%Z.
    { rewrite Zlt_Qlt, inject_Z_plus. change (inject_Z 1) with 1.
      eapply Qle_lt_trans; [apply Qfloor_le | done]. }
    lia.
Qed.

(** [Math.floor(Math.random() * n)] is an index of an array of length [n]. *)
Lemma randomIndex_range (x : Q) (n : nat) :
  0 <= x -> x < 1 -> (0 < n)%nat ->
  (0 <= Num.floor (x * inject_Z (Z.of_nat n)) < Z.of_nat n)%Z.
Proof.
  intros H0 H1 Hn. unfold Num.floor.
  assert (0 < inject_Z (Z.of_nat n)) as Hpos.
  { change 0 with (inject_Z 0). rewrite <- Zlt_Qlt. lia. }
  split.
  - apply (Z.le_trans _ (Qfloor 0)); [done |]. apply Qfloor_resp_le.
    apply Qmult_le_0_compat; [done | by apply Qlt_le_weak].
  - rewrite Zlt_Qlt. eapply Qle_lt_trans; [apply Qfloor_le |].
    rewrite <- (Qmult_1_l (inject_Z (Z.of_nat n))) at 2.
    by apply Qmult_lt_compat_r.
Qed.

Lemma randomIndex_lookup {A} (arr : list A) (x : Q) :
  0 <= x -> x < 1 -> arr <> [] ->
  exists a, arr !! Z.to_nat (Num.floor (x * inject_Z (Z.of_nat (length arr)))) = Some a.
Proof.
  intros H0 H1 Hne.
  assert (0 < length arr)%nat as Hlen by (destruct arr; [done | simpl; lia]).
  pose proof (randomIndex_range x _ H0 H1 Hlen) as [Hl Hu].
  apply lookup_lt_is_Some_2. lia.
Qed.

(** ** Shuffle *)

Lemma swap_Permutation {A} (a : list A) (i j : nat) (x y : A) :
  a !! i = Some x -> a !! j = Some y ->
  <[j := x]> (<[i := y]> a) ≡ₚ a.
Proof.
  intros Hi Hj.
  pose proof (lookup_lt_Some _ _ _ Hi) as Hil.
  pose proof (lookup_lt_Some _ _ _ Hj) as Hjl.
  apply Permutation_inj. split; [by rewrite !length_insert |].
  exists (fun n => if decide (n = i) then j else if decide (n = j) then i else n).
  split.
  - intros n m. repeat case_decide; intros; simplify_eq; congruence.
  - intros n. destruct (decide (n = j)) as [-> | Hnj].
    + rewrite list_lookup_insert_eq by (by rewrite length_insert).
      case_decide; congruence.
    + rewrite list_lookup_insert_ne by done.
      destruct (decide (n = i)) as [-> | Hni].
      * rewrite list_lookup_insert_eq by done. congruence.
      * by rewrite list_lookup_insert_ne.
Qed.

Lemma swap_spec {A} (a : list A) (i : nat) (j : Z) w k :
  (i < length a)%nat -> (0 <= j < Z.of_nat (length a))%Z ->
  wp (swap a i j) w k (fun a' k' => k' = k /\ a' ≡ₚ a).
Proof.
  intros Hi Hj.
  destruct (lookup_lt_is_Some_2 a i Hi) as [x Hx].
  destruct (lookup_lt_is_Some_2 a (Z.to_nat j)) as [y Hy]; [lia |].
  unfold swap. apply wp_bind. eapply wp_index; [lia | done |].
  apply wp_bind. eapply wp_index; [lia | by rewrite Nat2Z.id |].
  apply wp_ret. split; [done | by apply swap_Permutation].
Qed.

Lemma shuffle_from_spec {A} (i : nat) (a : list A) w k :
  randomsOk w -> (i = 0 \/ i < length a)%nat ->
  wp (shuffle_from i a) w k (fun a' k' => a' ≡ₚ a /\ ccur k' = ccur k).
Proof.
  intros Hw. revert a k. induction i as [| i IH]; intros a k Hi.
  - by apply wp_ret.
  - destruct Hi as [| Hi]; [done |].
    cbn [shuffle_from]. apply wp_bind, wp_mathRandom.
    destruct (Hw (rcur k)) as [H0 H1].
    pose proof (randomIndex_range _ (S (S i)) H0 H1 ltac:(lia)) as Hj.
    replace (Z.of_nat (S (S i))) with (Z.of_nat (S i) + 1)%Z in Hj by lia.
    apply wp_bind.
    eapply wp_mono; [apply swap_spec; [lia | lia] |].
    intros a' k' [-> Hperm]. cbn beta.
    eapply wp_mono; [apply IH |].
    + right. rewrite (Permutation_length Hperm). lia.
    + intros a'' k'' [Hp Hc]. split; [by rewrite Hp | done].
Qed.

Lemma shuffle_spec {A} (arr : list A) w k :
  randomsOk w ->
  wp (shuffle arr) w k (fun a' k' => a' ≡ₚ arr /\ ccur k' = ccur k).
Proof.
  intros Hw. apply shuffle_from_spec; [done |].
  destruct arr; [by left | right; simpl; lia].
Qed.

(** ** Round Generator *)

Lemma makeBaseSwatch_spec c w k :
  wp (makeBaseSwatch c) w k (fun sw k' => isBase c sw /\ ccur k' = ccur k).
Proof.
  unfold makeBaseSwatch. apply wp_bind, wp_mathRandom, wp_ret.
  repeat split. by eexists.
Qed.

Lemma mapM_makeBaseSwatch_spec cs w k :
  wp (mapM makeBaseSwatch cs) w k
     (fun sws k' => Forall2 isBase cs sws /\ ccur k' = ccur k).
Proof.
  revert k. induction cs as [| c cs IH]; intros k.
  - by apply wp_ret.
  - cbn [mapM]. apply wp_bind.
    eapply wp_mono; [apply makeBaseSwatch_spec |]. intros sw k1 [Hsw Hk1].
    apply wp_bind. eapply wp_mono; [apply IH |]. intros sws k2 [Hsws Hk2].
    apply wp_ret. split; [by constructor | congruence].
Qed.

Lemma pickOne_spec {A} (arr : list A) w k :
  randomsOk w -> arr <> [] ->
  wp (pickOne arr) w k (fun a k' => a ∈ arr /\ ccur k' = ccur k).
Proof.
  intros Hw Hne. unfold pickOne. apply wp_bind, wp_mathRandom.
  destruct (Hw (rcur k)) as [H0 H1].
  destruct (randomIndex_lookup arr _ H0 H1 Hne) as [a Ha].
  assert (0 < length arr)%nat as Hlen by (destruct arr; [done | simpl; lia]).
  eapply wp_index; [by apply randomIndex_range | done |].
  split; [by eapply list_elem_of_lookup_2 | done].
Qed.

Lemma SWATCHES_label c l sw : sw ∈ SWATCHES c l -> sw_label sw = c.
Proof.
  destruct c, l; cbn; intros H; repeat (apply elem_of_cons in H as [-> | H]; [done |]);
    by apply elem_of_nil in H.
Qed.

Lemma SWATCHES_nonempty c l : SWATCHES c l <> [].
Proof. by destruct c, l. Qed.

Lemma candidatesFor_nonempty prev : candidatesFor prev <> [].
Proof. by destruct prev as [[] |]. Qed.

Lemma makeRound_spec prev lvl w k :
  randomsOk w ->
  wp (makeRound prev lvl) w k
     (fun rd k' => roundSpec prev lvl (randoms w (rcur k)) rd
                   /\ ccur k' = S (ccur k)).
Proof.
  intros Hw. unfold makeRound. apply wp_bind, wp_mathRandom.
  destruct (Hw (rcur k)) as [H0 H1].
  destruct (randomIndex_lookup (candidatesFor prev) _ H0 H1
              (candidatesFor_nonempty prev)) as [target Ht].
  assert (0 < length (candidatesFor prev))%nat as Hlen
    by (destruct prev as [[] |]; vm_compute; lia).
  apply wp_bind. eapply wp_index; [by apply randomIndex_range | done |].
  apply wp_bind.
  set (post := fun (cs : Swatch) (k' : Cursor) =>
    (sw_label cs = target
     /\ (lvl = easy -> isBase target cs)
     /\ (lvl <> easy ->
         exists picked, picked ∈ SWATCHES target lvl /\ sw_hex cs = sw_hex picked))
    /\ ccur k' = ccur k).
  assert (forall k0, ccur k0 = ccur k ->
            wp (if decide (lvl = easy) then makeBaseSwatch target
                else picked <- pickOne (SWATCHES target lvl) ;;
                     y <- mathRandom ;;
                     ret {| sw_id := FreshId target y;
                            sw_label := sw_label picked;
                            sw_hex := sw_hex picked |}) w k0 post) as Hcs.
  { intros k0 Hk0. case_decide as Hl.
    - eapply wp_mono; [apply makeBaseSwatch_spec |].
      intros sw k' [Hb Hk']. split; [| congruence].
      split; [apply Hb |]. split; [done | by intros []].
    - apply wp_bind. eapply wp_mono; [by apply pickOne_spec, SWATCHES_nonempty |].
      intros picked k' [Hin Hk']. apply wp_bind, wp_mathRandom, wp_ret.
      split; [| cbn; congruence]. cbn.
      split; [by eapply SWATCHES_label |]. split; [done | eauto]. }
  eapply wp_mono; [by apply Hcs |]. clear Hcs.
  intros cs k1 [(Hlab & Heasy & Hhard) Hk1].
  apply wp_bind. eapply wp_mono; [apply mapM_makeBaseSwatch_spec |].
  intros ds k2 [Hds Hk2].
  apply wp_bind. eapply wp_mono; [by apply shuffle_spec |].
  intros opts k3 [Hperm Hk3].
  apply wp_bind, wp_dateNow, wp_bind, wp_mathRandom, wp_ret.
  split; [| cbn; congruence].
  split; [done |]. split; [done |]. exists cs, ds. by cbn.
Qed.



Lemma candidatesFor_elem prev c :
  c ∈ candidatesFor prev <-> c ∈ all /\ prev <> Some c.
Proof.
  destruct prev as [p |]; cbn [candidatesFor].
  - rewrite list_elem_of_filter. split; intros [H1 H2]; split; try done; congruence.
  - split; [by intros H | by intros [H _]].
Qed.


Lemma distractors_base target ds :
  Forall2 isBase (filter (fun c => c <> target) all) ds ->
  length ds = 2%nat
  /\ Forall (fun d => sw_label d <> target
                      /\ sw_hex d = BASE_COLOR (sw_label d)) ds.
Proof.
  intros H.
  assert (Forall (fun c => c <> target) (filter (fun c => c <> target) all)) as Hne.
  { apply Forall_forall. intros c Hc. by apply list_elem_of_filter in Hc as [? _]. }
  split.
  - rewrite <- (Forall2_length _ _ _ H). by destruct target.
  - revert Hne. induction H as [| c d cs ds' (Hl & Hh & _) _ IH]; [done |].
    intros Hne. apply Forall_cons in Hne as [Hc Hcs].
    constructor; [| by apply IH]. rewrite Hl. by split.
Qed.

Lemma filter_none {A} (P : A -> Prop) `{forall x, Decision (P x)} (l : list A) :
  Forall (fun x => ~ P x) l -> filter P l = [].
Proof.
  induction 1 as [| x l Hx _ IH]; [done |]. by rewrite filter_cons_False.
Qed.

(** C7. Every generated trial has exactly one option whose label is the
    target, and every other option carries the base colour of its own label,
    at every level. *)
Theorem makeRound_options (prev : option ColorKey) (lvl : Level)
    (w : World) (k : Cursor) :
  randomsOk w ->
  exists rd k',
    makeRound prev lvl w k = Some (rd, k')
    /\ length (filter (fun o => sw_label o = rd_target rd) (rd_options rd)) = 1%nat
    /\ length (rd_options rd) = 3%nat
    /\ (forall o, o ∈ rd_options rd -> sw_label o <> rd_target rd ->
          sw_hex o = BASE_COLOR (sw_label o)).
Proof.
  intros Hw.
  destruct (proj1 (wp_run _ _ _ _) (makeRound_spec prev lvl w k Hw))
    as (rd & k' & Hrun & (_ & _ & cs & ds & Hperm & Hlab & _ & _ & Hds) & _).
  apply distractors_base in Hds as [Hlen Hds].
  exists rd, k'. split; [done |]. split; [| split].
  - rewrite (Permutation_length (filter_Permutation _ _ _ Hperm)).
    rewrite filter_cons_True by done. cbn [length]. f_equal.
    apply length_zero_iff_nil, filter_none.
    eapply Forall_impl; [done |]. by intros d [Hd _].
  - rewrite (Permutation_length Hperm). cbn [length]. by rewrite Hlen.
  - intros o Ho Hne. rewrite Hperm in Ho.
    apply elem_of_cons in Ho as [-> | Ho]; [done |].
    rewrite Forall_forall in Hds. by apply Hds.
Qed.

(** ** Attempt log *)


Lemma appendAttempt_head a prev : appendAttempt a prev !! 0%nat = Some a.
Proof. done. Qed.

Lemma appendAll_take rs log :
  appendAll rs log = take MAX_ATTEMPTS (reverse rs ++ log)
  \/ (rs = [] /\ appendAll rs log = log).
Proof.
  revert log. induction rs as [| a rs IH]; intros log; [by right |]. left.
  cbn [appendAll foldl]. fold (appendAll rs (appendAttempt a log)).
  destruct (IH (appendAttempt a log)) as [-> | [-> ->]].
  - unfold appendAttempt. rewrite reverse_cons, <- app_assoc. cbn [app].
    generalize (reverse rs). intros l.
    destruct (decide (length l <= MAX_ATTEMPTS)%nat) as [Hl | Hl].
    + rewrite !(take_app l), take_take. do 2 f_equal. lia.
    + by rewrite !take_app_le by lia.
  - by rewrite reverse_singleton.
Qed.

(** C8. Whatever was persisted and however many records are appended, the
    log never exceeds 100 records, and it is the newest records first: the
    appended ones in reverse order followed by the loaded ones, cut after the
    100th, so that the oldest are the ones dropped. *)
Theorem attempts_bounded_most_recent (loaded : option (list Attempt))
    (rs : list Attempt) :
  let log := appendAll rs (loadedAttempts loaded) in
  (length log <= 100)%nat
  /\ log = take 100 (reverse rs ++ loadedAttempts loaded)
  /\ (forall (i : nat) a, (i < 100)%nat -> (i < length rs)%nat ->
        reverse rs !! i = Some a -> log !! i = Some a)
  /\ ((100 <= length rs)%nat -> log = take 100 (reverse rs)).
Proof.
  intros log.
  assert (length (loadedAttempts loaded) <= 100)%nat as Hinit.
  { destruct loaded; cbn; [rewrite length_take |]; lia. }
  assert (log = take 100 (reverse rs ++ loadedAttempts loaded)) as Hlog.
  { destruct (appendAll_take rs (loadedAttempts loaded)) as [H | [-> H]]; [done |].
    unfold log. rewrite H. cbn. by rewrite take_ge. }
  split; [rewrite Hlog, length_take; lia |]. split; [done |]. split.
  - intros i a Hi Hlen Ha. rewrite Hlog, lookup_take_lt by done.
    by rewrite lookup_app_l by (by rewrite length_reverse).
  - intros Hlen. rewrite Hlog. apply take_app_le. by rewrite length_reverse.
Qed.

(** ** Decision Gateway *)

Lemma gateway_failed resp d : failed resp -> gateway resp d = FromFallback d.
Proof. by destruct resp as [| | [] []]. Qed.

(** The null payload is not a decision; it is the one payload on which the
    destructuring itself throws. *)
Lemma asDecision_null : asDecision JNull = None.
Proof. done. Qed.

(** ** Session State Machine *)

Section OnPick.
Variables (swatch : Swatch) (st : State) (rnd : Round).
Variables (w : World) (k : Cursor).
Hypothesis Hround : round st = Some rnd.

Let now := clock w (ccur k).
Let ts := clock w (S (ccur k)).
Let latencySec := latencyOf now (roundStartTs st).
Let correct := bool_decide (sw_label swatch = rd_target rnd).
Let k2 := {| rcur := rcur k; ccur := S (S (ccur k)) |}.
Let local := localDecision (signalsOf correct swatch latencySec st) (level st)
               (highFrustrationStreak st) (successStreak st) correct.

(** After a decision [d] from source [src], [onPick] is [advance] on the
    state with the decision applied and the attempt logged. *)
Let resume (d : DecisionResult) (src : Source) : option (Outcome * Cursor) :=
  advance rnd correct d
    (applyDecision (attemptOf rnd swatch correct latencySec ts d src st) d st
       (afterMetrics correct swatch src st)) w k2.

Lemma onPick_fallback resp :
  failed resp -> onPick swatch resp st w k = resume local fallback.
Proof.
  intros Hf. unfold onPick, bind. rewrite Hround. cbn [dateNow].
  by rewrite (gateway_failed _ _ Hf).
Qed.

Lemma onPick_backend j d :
  asDecision j = Some d ->
  onPick swatch (Replied true (Some j)) st w k = resume d backend.
Proof.
  intros Hd. unfold onPick, bind. rewrite Hround. cbn [dateNow gateway].
  destruct j; [done | by rewrite Hd ..].
Qed.

Lemma onPick_null :
  onPick swatch (Replied true (Some JNull)) st w k
  = Some (Threw (afterMetrics correct swatch backend st),
          {| rcur := rcur k; ccur := S (ccur k) |}).
Proof. unfold onPick, bind. by rewrite Hround. Qed.

Lemma onPick_unshaped j :
  j <> JNull -> asDecision j = None ->
  onPick swatch (Replied true (Some j)) st w k
  = Some (Unshaped (afterMetrics correct swatch backend st) j,
          {| rcur := rcur k; ccur := S (ccur k) |}).
Proof.
  intros Hj Hd. unfold onPick, bind. rewrite Hround. cbn [dateNow gateway].
  destruct j; [done | by rewrite Hd ..].
Qed.
End OnPick.

Lemma startRound_spec prevTarget lvl st w k :
  randomsOk w ->
  wp (startRound prevTarget lvl st) w k
     (fun st' _ =>
        attempts st' = attempts st
        /\ decisionSource st' = decisionSource st
        /\ level st' = level st
        /\ successStreak st' = successStreak st
        /\ highFrustrationStreak st' = highFrustrationStreak st
        /\ exists rd, round st' = Some rd /\ rd_target rd <> prevTarget).
Proof.
  intros Hw. unfold startRound. apply wp_bind.
  eapply wp_mono; [by apply makeRound_spec |].
  intros rd k1 [(Ht & _) _]. apply wp_bind, wp_dateNow, wp_ret. cbn.
  repeat split. exists rd. split; [done |].
  apply list_elem_of_lookup_2, candidatesFor_elem in Ht as [_ Hne]. congruence.
Qed.

(** Step 4 keeps the log, the streaks, the level and the source. *)
Lemma advance_spec rnd correct d st2 w k :
  randomsOk w ->
  wp (advance rnd correct d st2) w k
     (fun o _ => exists st' tm,
        o = Stepped st' tm
        /\ attempts st' = attempts st2
        /\ decisionSource st' = decisionSource st2
        /\ level st' = level st2
        /\ successStreak st' = successStreak st2
        /\ highFrustrationStreak st' = highFrustrationStreak st2).
Proof.
  intros Hw. unfold advance. case_decide.
  - apply wp_bind. eapply wp_mono; [by apply startRound_spec |].
    intros st3 k' (? & ? & ? & ? & ? & _). apply wp_ret. by exists st3, NoTimer.
  - destruct correct; apply wp_ret; by eexists _, _.
Qed.

Lemma advance_not_ease rnd correct d st2 w k :
  d_action d <> ease ->
  advance rnd correct d st2 w k
  = Some (Stepped st2 (if correct
                       then NextRoundAfter700 (rd_target rnd) (d_suggestedLevel d)
                       else HintOffAfter400), k).
Proof. intros Ha. unfold advance. case_decide; [done |]. by destruct correct. Qed.


(** ** A correct choice *)

Lemma toFixed2_le (x : Q) (n : Z) :
  0 <= x -> x <= inject_Z n / 100 -> Num.toFixed2 x <= inject_Z n / 100.
Proof.
  intros H0 Hx. rewrite (toFixed2_nonneg _ H0), !div100.
  assert (Num.hundredths x <= n)%Z as Hn.
  { assert (Qfloor (inject_Z n + (1 # 2)) = n) as <-.
    { apply Qfloor_unique. set (y := inject_Z n). split; lra. }
    apply Qfloor_resp_le. rewrite div100 in Hx. set (y := inject_Z n) in *. lra. }
  rewrite Zle_Qle in Hn.
  set (y := inject_Z n) in *. set (z := inject_Z (Num.hundredths x)) in *. lra.
Qed.

(** With the three error signals at 0 only hints and latency weigh in. *)
Lemma computeFrustration_correct (hints latency : Q) :
  let f := computeFrustration
             {| sig_errorsConsecutive := 0; sig_hintsUsed := hints;
                sig_retriesSameRound := 0; sig_latencySec := latency;
                sig_perseveration := 0 |} in
  fc_e (components f) == 0 /\ fc_r (components f) == 0
  /\ fc_s (components f) == 0 /\ value f <= 40 # 100.
Proof.
  cbn zeta. split; [done |]. split; [done |]. split; [done |].
  cbn [value computeFrustration sig_errorsConsecutive sig_hintsUsed
       sig_retriesSameRound sig_latencySec sig_perseveration].
  change (40 # 100) with (inject_Z 40 / 100).
  set (c := Build_Components _ _ _ _ _).
  pose proof (clamp01_range (hints / 2)) as [Hh0 Hh1].
  pose proof (clamp01_range ((latency - 3) / (12 - 3))) as [Ht0 Ht1].
  assert (weighted c == (20 # 100) * clamp01 (hints / 2)
                        + (20 # 100) * clamp01 ((latency - 3) / (12 - 3))) as Hw.
  { unfold weighted, c. cbn [fc_e fc_h fc_r fc_t fc_s].
    change (clamp01 (0 / 3)) with 0. change (clamp01 (0 / 2)) with 0.
    set (a := clamp01 _). set (b := clamp01 _). ring. }
  apply toFixed2_le.
  - rewrite Hw.
    set (a := clamp01 _) in *. set (b := clamp01 _) in *. lra.
  - rewrite Hw, div100. change (inject_Z 40) with 40.
    set (a := clamp01 _) in *. set (b := clamp01 _) in *. lra.
Qed.

(** Below the high threshold the policy never eases and clears the high
    streak. *)
Lemma localPolicy_low frustration lvl hfs ss correct :
  value frustration < 65 # 100 ->
  let d := localPolicy frustration lvl hfs ss correct in
  d_action d <> ease /\ d_nextHighFrustrationStreak d = 0.
Proof.
  intros HF d.
  assert (d_action d <> ease) as Ha.
  { intros He. apply policyAction_ease_high in He. lra. }
  split; [done |]. unfold d, localPolicy in *. cbn in *.
  case_decide; [done |]. by apply nextHigh_low.
Qed.

(** C9. On a correct choice the signals handed to the decision step have
    [errorsConsecutive], [retriesSameRound] and [perseveration] at 0, so the
    local frustration value is at most 0.40 (its error, retry and
    perseveration components are 0); the local action is never [ease] and
    the high-frustration streak is reset to 0. *)
Theorem onPick_correct_local (swatch : Swatch) (resp : Response)
    (st : State) (rnd : Round) (w : World) (k : Cursor) :
  round st = Some rnd ->
  sw_label swatch = rd_target rnd ->
  failed resp ->
  let sig := signalsOf true swatch
               (latencyOf (clock w (ccur k)) (roundStartTs st)) st in
  (sig_errorsConsecutive sig = 0 /\ sig_retriesSameRound sig = 0
   /\ sig_perseveration sig = 0)
  /\ exists st' lvl k' a,
       onPick swatch resp st w k
       = Some (Stepped st' (NextRoundAfter700 (rd_target rnd) lvl), k')
       /\ attempts st' !! 0%nat = Some a
       /\ a_correct a = true
       /\ a_source a = fallback
       /\ a_frustration a = value (computeFrustration sig)
       /\ a_frustration a <= 40 # 100
       /\ (fc_e (a_frustrationComponents a) == 0
           /\ fc_r (a_frustrationComponents a) == 0
           /\ fc_s (a_frustrationComponents a) == 0)
       /\ (a_action a = keep \/ a_action a = support)
       /\ highFrustrationStreak st' = 0.
Proof.
  intros Hround Hcorrect Hfailed sig. split; [done |].
  rewrite (onPick_fallback _ _ _ _ _ Hround _ Hfailed).
  rewrite (bool_decide_eq_true_2 _ Hcorrect).
  set (d := localDecision _ _ _ _ _). set (a := attemptOf _ _ _ _ _ _ _ _).
  destruct (computeFrustration_correct (hintsUsed st)
              (latencyOf (clock w (ccur k)) (roundStartTs st)))
    as (He & Hr & Hs & Hv).
  destruct (localPolicy_low (computeFrustration sig) (level st)
              (highFrustrationStreak st) (successStreak st) true) as [Ha Hh].
  { eapply Qle_lt_trans; [apply Hv | done]. }
  change (d_action d <> ease) in Ha.
  change (d_nextHighFrustrationStreak d = 0) in Hh.
  rewrite advance_not_ease by done.
  eexists _, _, _, a. split; [done |]. split; [done |].
  split; [done |]. split; [done |]. split; [done |]. split; [done |].
  split; [done |]. split; [| done].
  change (a_action a) with (d_action d). revert Ha.
  destruct (d_action d); auto. by intros [].
Qed.

(** ** The gateway, end to end *)

Lemma advance_applyDecision rnd swatch correct latencySec ts d src st w k :
  randomsOk w ->
  let a := attemptOf rnd swatch correct latencySec ts d src st in
  exists st' tm k',
    advance rnd correct d
      (applyDecision a d st (afterMetrics correct swatch src st)) w k
    = Some (Stepped st' tm, k')
    /\ decisionSource st' = src
    /\ attempts st' = appendAttempt a (attempts st)
    /\ level st' = d_suggestedLevel d
    /\ successStreak st' = d_nextSuccessStreak d
    /\ highFrustrationStreak st' = d_nextHighFrustrationStreak d.
Proof.
  intros Hw a.
  destruct (proj1 (wp_run _ _ _ _)
              (advance_spec rnd correct d
                 (applyDecision a d st (afterMetrics correct swatch src st)) w k Hw))
    as (o & k' & Hrun & st' & tm & -> & Hatt & Hsrc & Hlvl & Hss & Hhfs).
  exists st', tm, k'. split; [done |].
  rewrite Hatt, Hsrc, Hlvl, Hss, Hhfs. repeat split. cbn.
  destruct (decide (d_suggestedLevel d <> level st)) as [| Hne]; [done |].
  by destruct (decide (d_suggestedLevel d = level st)).
Qed.

Lemma onPick_completesWith swatch resp st rnd w k d src :
  randomsOk w ->
  onPick swatch resp st w k
  = advance rnd (bool_decide (sw_label swatch = rd_target rnd)) d
      (applyDecision
         (attemptOf rnd swatch (bool_decide (sw_label swatch = rd_target rnd))
            (latencyOf (clock w (ccur k)) (roundStartTs st))
            (clock w (S (ccur k))) d src st) d st
         (afterMetrics (bool_decide (sw_label swatch = rd_target rnd)) swatch src st))
      w {| rcur := rcur k; ccur := S (S (ccur k)) |} ->
  completesWith swatch resp st w k d src.
Proof.
  intros Hw Hrun. unfold completesWith. rewrite Hrun.
  destruct (advance_applyDecision rnd swatch
              (bool_decide (sw_label swatch = rd_target rnd))
              (latencyOf (clock w (ccur k)) (roundStartTs st))
              (clock w (S (ccur k))) d src st w
              {| rcur := rcur k; ccur := S (S (ccur k)) |} Hw)
    as (st' & tm & k' & Hadv & Hsrc & Hatt & Hlvl & Hss & Hhfs).
  eexists st', tm, k', _. split; [done |]. split; [done |].
  rewrite Hatt. split; [done |]. by repeat split.
Qed.

(** A success response whose JSON body is not a decision is not treated as a
    failure: the source is tagged [backend] and the payload is kept.  On
    [null] the destructuring throws, and nothing is logged. *)
Lemma onPick_payload_not_decision swatch st rnd w k :
  round st = Some rnd ->
  (exists st1 k',
     onPick swatch (Replied true (Some JNull)) st w k = Some (Threw st1, k')
     /\ decisionSource st1 = backend /\ attempts st1 = attempts st)
  /\ (forall j, j <> JNull -> asDecision j = None ->
        exists st1 k',
          onPick swatch (Replied true (Some j)) st w k = Some (Unshaped st1 j, k')
          /\ decisionSource st1 = backend /\ attempts st1 = attempts st).
Proof.
  intros Hround. split.
  - eexists _, _. by rewrite (onPick_null _ _ _ _ _ Hround).
  - intros j Hj Hd. eexists _, _. by rewrite (onPick_unshaped _ _ _ _ _ Hround).
Qed.

(** C5 (amended). From a state with a current round [onPick] completes with
    a decision in two cases.  When the remote call fails (network error,
    timeout, non-success status, or a body that is not JSON) the decision is
    the one the local scorer and policy compute, tagged [fallback].  When the
    service answers with success and a JSON body that is a decision, that
    payload is the decision, field for field, tagged [backend].  Any JSON
    body of a success answer is what the gateway hands on, as it came. *)
Theorem onPick_gateway (swatch : Swatch) (resp : Response) (st : State)
    (rnd : Round) (w : World) (k : Cursor) :
  randomsOk w ->
  round st = Some rnd ->
  let correct := bool_decide (sw_label swatch = rd_target rnd) in
  let latencySec := latencyOf (clock w (ccur k)) (roundStartTs st) in
  let local :=
    localPolicy (computeFrustration (signalsOf correct swatch latencySec st))
      (level st) (highFrustrationStreak st) (successStreak st) correct in
  (failed resp -> completesWith swatch resp st w k local fallback)
  /\ (forall j d, resp = Replied true (Some j) -> asDecision j = Some d ->
        completesWith swatch resp st w k d backend)
  /\ (forall j, resp = Replied true (Some j) ->
        gateway resp local = FromBackend j).
Proof.
  intros Hw Hround correct latencySec local. split; [| split].
  - intros Hf. apply (onPick_completesWith _ _ _ rnd); [done |].
    by apply onPick_fallback.
  - intros j d -> Hd. apply (onPick_completesWith _ _ _ rnd); [done |].
    by apply onPick_backend.
  - by intros j ->.
Qed.

(** ** Worked examples *)

Ltac qcompute := vm_compute; first [reflexivity | discriminate | done].

Lemma Sample_randomsOk : randomsOk Sample.w.
Proof. intros n. split; qcompute. Qed.

(** Scenario 1 of the specification: three errors, two retries, no hint, a
    latency of 3 s give F = 0.50 and [support]. *)
Example scenario1 :
  let f := computeFrustration (Sample.signals 3 0 2 3 0) in
  value f == 50 # 100
  /\ d_action (localPolicy f easy 0 0 false) = support.
Proof. split; qcompute. Qed.

(** Scenario 2: every signal saturated and a high streak of 1 give F = 1.00,
    [ease], one level down, both streaks at 0. *)
Example scenario2 :
  let d := localDecision (Sample.signals 3 2 2 12 2) hard 1 2 false in
  value (d_frustration d) == 1
  /\ d_action d = ease /\ d_suggestedLevel d = medium
  /\ d_nextHighFrustrationStreak d == 0 /\ d_nextSuccessStreak d == 0.
Proof. repeat split; qcompute. Qed.

(** Scenario 3: a third correct trial in a row with low frustration gives
    [keep], one level up, and the rule [levelup_by_streak]. *)
Example scenario3 :
  let d := localDecision (Sample.signals 0 0 0 1 0) easy 0 2 true in
  d_action d = keep /\ d_suggestedLevel d = medium
  /\ d_nextSuccessStreak d == 0
  /\ ruleOf (d_action d) (d_suggestedLevel d) easy = levelup_by_streak.
Proof. repeat split; qcompute. Qed.

Lemma localPolicy_action_witness :
  65 # 100 <= value (Sample.valued (70 # 100))
  /\ 2 <= 1 + 1
  /\ d_action (localPolicy (Sample.valued (70 # 100)) medium 1 0 false) = ease.
Proof.
  split; [qcompute |]. split; [qcompute |].
  apply (proj1 (proj2 (proj2
           (localPolicy_action (Sample.valued (70 # 100)) medium 1 0 false))));
    qcompute.
Defined.

Lemma localPolicy_nextHighFrustrationStreak_witness :
  65 # 100 <= value (Sample.valued (70 # 100))
  /\ d_action (localPolicy (Sample.valued (70 # 100)) medium 0 0 false) <> ease
  /\ d_nextHighFrustrationStreak
       (localPolicy (Sample.valued (70 # 100)) medium 0 0 false) = 0 + 1.
Proof.
  split; [qcompute |]. split; [qcompute |].
  apply (proj2 (localPolicy_nextHighFrustrationStreak
                  (Sample.valued (70 # 100)) medium 0 0 false)); qcompute.
Defined.

Lemma localPolicy_successStreak_witness :
  d_action (localPolicy (Sample.valued (10 # 100)) medium 0 2 true) <> ease
  /\ 3 <= candidateSuccess true 2
  /\ d_suggestedLevel (localPolicy (Sample.valued (10 # 100)) medium 0 2 true) = hard
  /\ d_nextSuccessStreak (localPolicy (Sample.valued (10 # 100)) medium 0 2 true) = 0.
Proof.
  split; [qcompute |]. split; [qcompute |].
  apply (proj1 (proj2 (proj2
           (localPolicy_successStreak (Sample.valued (10 # 100)) medium 0 2 true))));
    qcompute.
Defined.


Lemma makeRound_options_witness :
  randomsOk Sample.w
  /\ exists rd k',
       makeRound (Some rojo) hard Sample.w Sample.k = Some (rd, k')
       /\ length (filter (fun o => sw_label o = rd_target rd) (rd_options rd)) = 1%nat.
Proof.
  split; [apply Sample_randomsOk |].
  destruct (makeRound_options (Some rojo) hard Sample.w Sample.k Sample_randomsOk)
    as (rd & k' & Hrun & Hone & _).
  by exists rd, k'.
Defined.

Lemma attempts_bounded_most_recent_witness :
  (0 < 100)%nat /\ (0 < length [Sample.attempt 1; Sample.attempt 2])%nat
  /\ reverse [Sample.attempt 1; Sample.attempt 2] !! 0%nat = Some (Sample.attempt 2)
  /\ appendAll [Sample.attempt 1; Sample.attempt 2] (loadedAttempts None) !! 0%nat
     = Some (Sample.attempt 2).
Proof.
  split; [lia |]. split; [simpl; lia |]. split; [reflexivity |].
  apply (proj1 (proj2 (proj2
           (attempts_bounded_most_recent None [Sample.attempt 1; Sample.attempt 2])))
           0%nat (Sample.attempt 2)); [lia | simpl; lia | reflexivity].
Defined.

Lemma onPick_correct_local_witness :
  round Sample.st = Some Sample.rnd
  /\ sw_label Sample.rojo_sw = rd_target Sample.rnd
  /\ failed Aborted
  /\ exists st' lvl k',
       onPick Sample.rojo_sw Aborted Sample.st Sample.w Sample.k
       = Some (Stepped st' (NextRoundAfter700 rojo lvl), k')
       /\ highFrustrationStreak st' = 0.
Proof.
  split; [reflexivity |]. split; [reflexivity |]. split; [exact I |].
  destruct (onPick_correct_local Sample.rojo_sw Aborted Sample.st Sample.rnd
              Sample.w Sample.k eq_refl eq_refl I)
    as (_ & st' & lvl & k' & a & Hrun & _ & _ & _ & _ & _ & _ & _ & Hh).
  by exists st', lvl, k'.
Defined.


Lemma onPick_gateway_witness :
  randomsOk Sample.w
  /\ round Sample.st = Some Sample.rnd
  /\ failed FetchRejected
  /\ completesWith Sample.azul_sw FetchRejected Sample.st Sample.w Sample.k
       (localDecision
          (signalsOf false Sample.azul_sw
             (latencyOf (clock Sample.w 0) (roundStartTs Sample.st)) Sample.st)
          easy 0 0 false)
       fallback.
Proof.
  split; [apply Sample_randomsOk |]. split; [reflexivity |]. split; [exact I |].
  apply (proj1 (onPick_gateway Sample.azul_sw FetchRejected Sample.st Sample.rnd
                  Sample.w Sample.k Sample_randomsOk eq_refl)).
  exact I.
Defined.

(** C5, as stated, fails.  The service answers 200 with the body [null]: it
    parses as JSON and is not a decision, yet [onPick] does not fall back as
    it does when the fetch is rejected; it tags the source [backend] and
    throws.  With the body [{}] it keeps the payload as the decision. *)
Lemma onPick_gateway_counterexample :
  asDecision JNull = None
  /\ asDecision (JObj []) = None
  /\ (exists st1 k',
        onPick Sample.rojo_sw (Replied true (Some JNull)) Sample.st Sample.w Sample.k
        = Some (Threw st1, k')
        /\ decisionSource st1 = backend /\ attempts st1 = [])
  /\ (exists st1 k',
        onPick Sample.rojo_sw (Replied true (Some (JObj []))) Sample.st
          Sample.w Sample.k
        = Some (Unshaped st1 (JObj []), k')
        /\ decisionSource st1 = backend /\ attempts st1 = [])
  /\ (exists st' tm k' a,
        onPick Sample.rojo_sw FetchRejected Sample.st Sample.w Sample.k
        = Some (Stepped st' tm, k')
        /\ decisionSource st' = fallback /\ attempts st' = [a])
  /\ onPick Sample.rojo_sw (Replied true (Some JNull)) Sample.st Sample.w Sample.k
     <> onPick Sample.rojo_sw FetchRejected Sample.st Sample.w Sample.k
  /\ onPick Sample.rojo_sw (Replied true (Some (JObj []))) Sample.st Sample.w Sample.k
     <> onPick Sample.rojo_sw FetchRejected Sample.st Sample.w Sample.k.
Proof.
  split; [reflexivity |]. split; [reflexivity |].
  split; [eexists _, _; split; [vm_compute; reflexivity | by split] |].
  split; [eexists _, _; split; [vm_compute; reflexivity | by split] |].
  split; [eexists _, _, _, _; split; [vm_compute; reflexivity | by split] |].
  split; vm_compute; discriminate.
Qed.

(** * Further properties *)

(** ** Scorer *)

Lemma clamp_cases v lo hi :
  lo <= hi ->
  (v <= lo /\ clamp v lo hi == lo) \/ (lo <= v <= hi /\ clamp v lo hi == v)
  \/ (hi <= v /\ clamp v lo hi == hi).
Proof.
  intros Hb. unfold clamp.
  destruct (Q.max_spec lo (Qmin hi v)) as [[? ->] | [? ->]];
    destruct (Q.min_spec hi v) as [[? E] | [? E]]; rewrite ?E in *;
    try (left; split; lra); try (right; left; repeat split; lra);
    try (right; right; split; lra).
Qed.

(** X1. [clamp] with ordered bounds returns a number between them, leaves a
    number between them unchanged, sends one below to the lower bound and one
    above to the upper bound, and preserves order. *)
Theorem clamp_spec (v v' lo hi : Q) :
  lo <= hi ->
  (lo <= clamp v lo hi /\ clamp v lo hi <= hi)
  /\ (lo <= v -> v <= hi -> clamp v lo hi == v)
  /\ (v <= lo -> clamp v lo hi == lo)
  /\ (hi <= v -> clamp v lo hi == hi)
  /\ (v <= v' -> clamp v lo hi <= clamp v' lo hi).
Proof.
  intros Hb.
  destruct (clamp_cases v lo hi Hb) as [[? E] | [[[? ?] E] | [? E]]];
    destruct (clamp_cases v' lo hi Hb) as [[? E'] | [[[? ?] E'] | [? E']]];
    rewrite E; repeat split; intros; rewrite ?E'; lra.
Qed.

Lemma clamp01_low v : v <= 0 -> clamp01 v == 0.
Proof.
  intros H. unfold clamp01.
  destruct (clamp_cases v 0 1 ltac:(done)) as [[? E] | [[[? ?] E] | [? E]]];
    rewrite E; lra.
Qed.

Lemma clamp01_high v : 1 <= v -> clamp01 v == 1.
Proof.
  intros H. unfold clamp01.
  destruct (clamp_cases v 0 1 ltac:(done)) as [[? E] | [[[? ?] E] | [? E]]];
    rewrite E; lra.
Qed.

Lemma clamp01_id v : 0 <= v -> v <= 1 -> clamp01 v == v.
Proof.
  intros H0 H1. unfold clamp01.
  destruct (clamp_cases v 0 1 ltac:(done)) as [[? E] | [[[? ?] E] | [? E]]];
    rewrite E; lra.
Qed.

Lemma clamp01_mono v v' : v <= v' -> clamp01 v <= clamp01 v'.
Proof.
  intros H. unfold clamp01.
  destruct (clamp_cases v 0 1 ltac:(done)) as [[? E] | [[[? ?] E] | [? E]]];
    destruct (clamp_cases v' 0 1 ltac:(done)) as [[? E'] | [[[? ?] E'] | [? E']]];
    rewrite E, E'; lra.
Qed.

Lemma hundredths_mono x y : x <= y -> (Num.hundredths x <= Num.hundredths y)%Z.
Proof. intros H. unfold Num.hundredths. apply Qfloor_resp_le. lra. Qed.

Lemma toFixed2_mono x y : 0 <= x -> x <= y -> Num.toFixed2 x <= Num.toFixed2 y.
Proof.
  intros H0 Hxy. rewrite !toFixed2_nonneg by lra. rewrite !div100.
  pose proof (hundredths_mono x y Hxy) as H. rewrite Zle_Qle in H.
  set (a := inject_Z _) in *. set (b := inject_Z _) in *. lra.
Qed.

Lemma weighted_mono c c' :
  fc_e c <= fc_e c' -> fc_h c <= fc_h c' -> fc_r c <= fc_r c' ->
  fc_t c <= fc_t c' -> fc_s c <= fc_s c' -> weighted c <= weighted c'.
Proof. unfold weighted. intros. lra. Qed.

(** X2. The scorer is monotone: raising raw signals lowers no component and
    does not lower the value. *)
Theorem computeFrustration_mono (p p' : Signals) :
  signalsLe p p' ->
  let c := components (computeFrustration p) in
  let c' := components (computeFrustration p') in
  fc_e c <= fc_e c' /\ fc_h c <= fc_h c' /\ fc_r c <= fc_r c'
  /\ fc_t c <= fc_t c' /\ fc_s c <= fc_s c'
  /\ value (computeFrustration p) <= value (computeFrustration p').
Proof.
  intros (He & Hh & Hr & Ht & Hs). cbn zeta.
  assert (forall a b, a <= b -> a / 3 <= b / 3) as H3.
  { intros a b H. unfold Qdiv. change (/ 3) with (1 # 3). lra. }
  assert (forall a b, a <= b -> a / 2 <= b / 2) as H2.
  { intros a b H. unfold Qdiv. change (/ 2) with (1 # 2). lra. }
  assert (forall a b, a <= b -> (a - 3) / (12 - 3) <= (b - 3) / (12 - 3)) as H9.
  { intros a b H. unfold Qdiv. change (/ (12 - 3)) with (1 # 9). lra. }
  pose proof (clamp01_mono _ _ (H3 _ _ He)) as He'.
  pose proof (clamp01_mono _ _ (H2 _ _ Hh)) as Hh'.
  pose proof (clamp01_mono _ _ (H2 _ _ Hr)) as Hr'.
  pose proof (clamp01_mono _ _ (H9 _ _ Ht)) as Ht'.
  pose proof (clamp01_mono _ _ (H2 _ _ Hs)) as Hs'.
  split; [done |]. split; [done |]. split; [done |]. split; [done |].
  split; [done |].
  destruct (computeFrustration_weighted_range p) as [H0 _].
  apply toFixed2_mono; [done |]. by apply weighted_mono.
Qed.

Lemma computeFrustration_bounds p :
  0 <= value (computeFrustration p) /\ value (computeFrustration p) <= 1.
Proof.
  destruct (computeFrustration_weighted_range p). by apply toFixed2_range.
Qed.

(** X3. The two ends of the scale: with three errors, two hints, two
    retries, twelve seconds and two perseverations (or more of any) the value
    is 1; with no error, hint, retry or perseveration and at most three
    seconds it is 0. *)
Theorem computeFrustration_extremes (p : Signals) :
  (3 <= sig_errorsConsecutive p -> 2 <= sig_hintsUsed p ->
   2 <= sig_retriesSameRound p -> 12 <= sig_latencySec p ->
   2 <= sig_perseveration p ->
   value (computeFrustration p) == 1)
  /\ (sig_errorsConsecutive p <= 0 -> sig_hintsUsed p <= 0 ->
      sig_retriesSameRound p <= 0 -> sig_latencySec p <= 3 ->
      sig_perseveration p <= 0 ->
      value (computeFrustration p) == 0).
Proof.
  pose proof (computeFrustration_bounds p) as [Hlo Hhi].
  pose proof (computeFrustration_weighted_range p) as [HW0 HW1].
  assert (forall a, 3 <= a -> 1 <= a / 3) as H3
    by (intros a H; unfold Qdiv; change (/ 3) with (1 # 3); lra).
  assert (forall a, 2 <= a -> 1 <= a / 2) as H2
    by (intros a H; unfold Qdiv; change (/ 2) with (1 # 2); lra).
  assert (forall a, 12 <= a -> 1 <= (a - 3) / (12 - 3)) as H9
    by (intros a H; unfold Qdiv; change (/ (12 - 3)) with (1 # 9); lra).
  assert (forall a, a <= 0 -> a / 3 <= 0) as L3
    by (intros a H; unfold Qdiv; change (/ 3) with (1 # 3); lra).
  assert (forall a, a <= 0 -> a / 2 <= 0) as L2
    by (intros a H; unfold Qdiv; change (/ 2) with (1 # 2); lra).
  assert (forall a, a <= 3 -> (a - 3) / (12 - 3) <= 0) as L9
    by (intros a H; unfold Qdiv; change (/ (12 - 3)) with (1 # 9); lra).
  cbn [value computeFrustration] in *.
  cbn [components computeFrustration weighted fc_e fc_h fc_r fc_t fc_s] in HW0, HW1.
  split.
  - intros He Hh Hr Ht Hs. apply Qle_antisym; [done |].
    apply (Qle_trans _ (Num.toFixed2 1)); [by vm_compute |].
    apply toFixed2_mono; [done |]. unfold weighted. cbn [fc_e fc_h fc_r fc_t fc_s].
    rewrite (clamp01_high _ (H3 _ He)), (clamp01_high _ (H2 _ Hh)),
      (clamp01_high _ (H2 _ Hr)), (clamp01_high _ (H9 _ Ht)),
      (clamp01_high _ (H2 _ Hs)). by vm_compute.
  - intros He Hh Hr Ht Hs. apply Qle_antisym; [| done].
    apply (Qle_trans _ (Num.toFixed2 0)); [| by vm_compute].
    apply toFixed2_mono; [done |]. unfold weighted. cbn [fc_e fc_h fc_r fc_t fc_s].
    rewrite (clamp01_low _ (L3 _ He)), (clamp01_low _ (L2 _ Hh)),
      (clamp01_low _ (L2 _ Hr)), (clamp01_low _ (L9 _ Ht)),
      (clamp01_low _ (L2 _ Hs)). by vm_compute.
Qed.

Lemma latencyOf_floor now start :
  latencyOf now start
  = inject_Z (Qfloor (inject_Z (now - start) / 1000 + (1 # 2))).
Proof. reflexivity. Qed.

Lemma Qfloor_bounds (y : Q) (lo hi : Z) :
  inject_Z lo <= y -> y < inject_Z hi + 1 ->
  inject_Z lo <= inject_Z (Qfloor y) /\ inject_Z (Qfloor y) <= inject_Z hi.
Proof.
  intros Hlo Hhi. rewrite <- !Zle_Qle. split.
  - rewrite <- (Qfloor_Z lo). by apply Qfloor_resp_le.
  - assert (Qfloor y < hi + 1)%Z; [| lia].
    rewrite Zlt_Qlt, inject_Z_plus. change (inject_Z 1) with 1.
    eapply Qle_lt_trans; [apply Qfloor_le | done].
Qed.

(** X4. The latency component as a function of the time since the round
    started: it is 0 for a pick made less than 3.5 s after the start, 1 from
    11.5 s on, and between 1/9 and 8/9 in between. *)
Theorem latency_component (now start : Z) (p : Signals) :
  sig_latencySec p = latencyOf now start ->
  let t := fc_t (components (computeFrustration p)) in
  ((now - start < 3500)%Z -> t == 0)
  /\ ((11500 <= now - start)%Z -> t == 1)
  /\ ((3500 <= now - start < 11500)%Z -> 1 # 9 <= t /\ t <= 8 # 9).
Proof.
  intros Hlat. cbn [components computeFrustration fc_t]. rewrite Hlat.
  rewrite latencyOf_floor. set (d := (now - start)%Z).
  set (y := inject_Z d / 1000 + (1 # 2)).
  assert (y == inject_Z d * (1 # 1000) + (1 # 2)) as Hy by reflexivity.
  assert (forall l, (l - 3) / (12 - 3) == (l - 3) * (1 # 9)) as H9 by reflexivity.
  split; [| split].
  - intros Hd. rewrite Zlt_Qlt in Hd. change (inject_Z 3500) with 3500 in Hd.
    destruct (Qfloor_bounds y (Qfloor y) 3) as [_ Hu]; [apply Qfloor_le | |].
    { change (inject_Z 3) with 3. set (D := inject_Z d) in *. lra. }
    change (inject_Z 3) with 3 in Hu.
    apply clamp01_low. rewrite H9.
    set (l := inject_Z (Qfloor y)) in *. lra.
  - intros Hd. rewrite Zle_Qle in Hd. change (inject_Z 11500) with 11500 in Hd.
    destruct (Qfloor_bounds y 12 (Qfloor y)) as [Hl _].
    { change (inject_Z 12) with 12. set (D := inject_Z d) in *. lra. }
    { pose proof (Qlt_floor y) as H. by rewrite inject_Z_plus in H. }
    change (inject_Z 12) with 12 in Hl.
    apply clamp01_high. rewrite H9.
    set (l := inject_Z (Qfloor y)) in *. lra.
  - intros [Hd1 Hd2]. rewrite Zle_Qle in Hd1. rewrite Zlt_Qlt in Hd2.
    change (inject_Z 3500) with 3500 in Hd1.
    change (inject_Z 11500) with 11500 in Hd2.
    destruct (Qfloor_bounds y 4 11) as [Hl Hu].
    { change (inject_Z 4) with 4. set (D := inject_Z d) in *. lra. }
    { change (inject_Z 11) with 11. set (D := inject_Z d) in *. lra. }
    change (inject_Z 4) with 4 in Hl. change (inject_Z 11) with 11 in Hu.
    assert (clamp01 ((inject_Z (Qfloor y) - 3) / (12 - 3))
            == (inject_Z (Qfloor y) - 3) / (12 - 3)) as ->.
    { apply clamp01_id; rewrite H9; set (l := inject_Z (Qfloor y)) in *; lra. }
    rewrite H9. set (l := inject_Z (Qfloor y)) in *. split; lra.
Qed.

(** ** Shuffle and pickOne *)

Lemma shuffle_from_run {A} (i : nat) (a : list A) w k :
  randomsOk w -> (i = 0 \/ i < length a)%nat ->
  exists a', shuffle_from i a w k
             = Some (a', {| rcur := rcur k + i; ccur := ccur k |})
             /\ a' ≡ₚ a.
Proof.
  intros Hw. revert a k. induction i as [| i IH]; intros a k Hi.
  - exists a. split; [| done]. cbn. destruct k. by rewrite Nat.add_0_r.
  - destruct Hi as [| Hi]; [done |].
    destruct (Hw (rcur k)) as [H0 H1].
    pose proof (randomIndex_range _ (S (S i)) H0 H1 ltac:(lia)) as Hj.
    replace (Z.of_nat (S (S i))) with (Z.of_nat (S i) + 1)%Z in Hj by lia.
    destruct (proj1 (wp_run _ _ _ _)
                (swap_spec a (S i) _ w {| rcur := S (rcur k); ccur := ccur k |}
                   ltac:(lia) ltac:(split; [apply Hj | lia])))
      as (a1 & k1 & Hswap & -> & Hperm).
    destruct (IH a1 {| rcur := S (rcur k); ccur := ccur k |}) as (a' & Hrun & Hp).
    { right. rewrite (Permutation_length Hperm). lia. }
    exists a'. split; [| by rewrite Hp].
    cbn [shuffle_from]. unfold bind at 1. cbn [mathRandom].
    unfold bind at 1. rewrite Hswap, Hrun. cbn. do 3 f_equal. lia.
Qed.

(** X5. [shuffle] returns a permutation of its argument, for every array and
    every script of random numbers; it draws one random number per element but
    one, and none for an empty or one-element array, which it returns as it
    is. *)
Theorem shuffle_permutes {A} (arr : list A) (w : World) (k : Cursor) :
  randomsOk w ->
  exists out,
    shuffle arr w k
    = Some (out, {| rcur := rcur k + (length arr - 1); ccur := ccur k |})
    /\ out ≡ₚ arr
    /\ length out = length arr
    /\ ((length arr <= 1)%nat -> out = arr).
Proof.
  intros Hw.
  destruct (shuffle_from_run (length arr - 1) arr w k Hw) as (out & Hrun & Hp).
  { destruct arr; [by left | right; simpl; lia]. }
  exists out. split; [done |]. split; [done |].
  split; [by rewrite Hp |]. intros Hlen.
  destruct arr as [| a [| b arr]]; [| | simpl in Hlen; lia].
  - by apply Permutation_nil_r in Hp.
  - by apply Permutation_singleton_r in Hp.
Qed.







(** ** Round Generator, continued *)

Lemma wp_and {A} (c : M A) w k (post post' : A -> Cursor -> Prop) :
  wp c w k post -> wp c w k post' -> wp c w k (fun a k' => post a k' /\ post' a k').
Proof. unfold wp. by destruct (c w k) as [[a k'] |]. Qed.

Lemma isBase_ownId c sw : isBase c sw -> ownId sw.
Proof. intros (Hl & _ & y & Hy). exists y. by rewrite Hl. Qed.

Lemma makeRound_ids prev lvl w k :
  randomsOk w ->
  wp (makeRound prev lvl) w k
     (fun rd _ => Forall ownId (rd_options rd)
                  /\ rid_now (rd_id rd) = clock w (ccur k)).
Proof.
  intros Hw. unfold makeRound. apply wp_bind, wp_mathRandom.
  destruct (Hw (rcur k)) as [H0 H1].
  destruct (randomIndex_lookup (candidatesFor prev) _ H0 H1
              (candidatesFor_nonempty prev)) as [target Ht].
  assert (0 < length (candidatesFor prev))%nat as Hlen
    by (destruct prev as [[] |]; vm_compute; lia).
  apply wp_bind. eapply wp_index; [by apply randomIndex_range | done |].
  apply wp_bind.
  assert (forall k0, ccur k0 = ccur k ->
            wp (if decide (lvl = easy) then makeBaseSwatch target
                else picked <- pickOne (SWATCHES target lvl) ;;
                     y <- mathRandom ;;
                     ret {| sw_id := FreshId target y;
                            sw_label := sw_label picked;
                            sw_hex := sw_hex picked |}) w k0
               (fun cs k' => ownId cs /\ ccur k' = ccur k)) as Hcs.
  { intros k0 Hk0. case_decide as Hl.
    - eapply wp_mono; [apply makeBaseSwatch_spec |].
      intros sw k' [Hb Hk']. split; [by eapply isBase_ownId | congruence].
    - apply wp_bind. eapply wp_mono; [by apply pickOne_spec, SWATCHES_nonempty |].
      intros picked k' [Hin Hk']. apply wp_bind, wp_mathRandom, wp_ret.
      split; [| cbn; congruence]. eexists. cbn.
      by rewrite (SWATCHES_label _ _ _ Hin). }
  eapply wp_mono; [by apply Hcs |]. clear Hcs.
  intros cs k1 [Hcs Hk1].
  apply wp_bind. eapply wp_mono; [apply mapM_makeBaseSwatch_spec |].
  intros ds k2 [Hds Hk2].
  apply wp_bind. eapply wp_mono; [by apply shuffle_spec |].
  intros opts k3 [Hperm Hk3].
  apply wp_bind, wp_dateNow, wp_bind, wp_mathRandom, wp_ret. cbn.
  split; [| congruence]. rewrite Hperm. constructor; [done |].
  clear -Hds. induction Hds; constructor; [by eapply isBase_ownId | done].
Qed.

(** The shape of a generated round, the distractors named. *)
Lemma roundSpec_shape prev lvl x rd :
  roundSpec prev lvl x rd ->
  exists cs d1 d2 c1 c2,
    rd_options rd ≡ₚ [cs; d1; d2]
    /\ sw_label cs = rd_target rd
    /\ [rd_target rd; c1; c2] ≡ₚ all
    /\ (c1 <> rd_target rd /\ c2 <> rd_target rd)
    /\ isBase c1 d1 /\ isBase c2 d2
    /\ (lvl = easy -> isBase (rd_target rd) cs)
    /\ (lvl <> easy ->
        exists picked, picked ∈ SWATCHES (rd_target rd) lvl
                       /\ sw_hex cs = sw_hex picked).
Proof.
  intros (_ & _ & cs & ds & Hperm & Hlab & Heasy & Hhard & Hds).
  assert (exists c1 c2, filter (fun c => c <> rd_target rd) all = [c1; c2]
                        /\ [rd_target rd; c1; c2] ≡ₚ all
                        /\ c1 <> rd_target rd /\ c2 <> rd_target rd)
    as (c1 & c2 & Hf & Hp & Hne).
  { destruct (rd_target rd); eexists _, _; (split; [reflexivity |]);
      (split; [unfold all; solve_Permutation | done]). }
  rewrite Hf in Hds.
  apply Forall2_cons_inv_l in Hds as (d1 & ds1 & Hd1 & Hds & ->).
  apply Forall2_cons_inv_l in Hds as (d2 & ds2 & Hd2 & Hds & ->).
  apply Forall2_nil_inv_l in Hds as ->.
  by exists cs, d1, d2, c1, c2.
Qed.

Lemma ownId_NoDup (l : list Swatch) :
  Forall ownId l -> NoDup (sw_label <$> l) -> NoDup (sw_id <$> l).
Proof.
  induction 1 as [| o l [y Hy] Hl IH]; cbn; [constructor |].
  rewrite !NoDup_cons. intros [Hnin Hnd]. split; [| by apply IH].
  rewrite list_elem_of_fmap. intros (o' & Heq & Hin). apply Hnin.
  rewrite list_elem_of_fmap. exists o'. split; [| done].
  rewrite Forall_forall in Hl. destruct (Hl o' Hin) as [y' Hy'].
  congruence.
Qed.

Lemma all_NoDup : NoDup all.
Proof. by apply (bool_decide_unpack _). Qed.

(** X8. Every generated round has the requested level and three options
    whose labels are the three colours, once each; each identifier starts with
    its option's label, so the identifiers of a round are pairwise distinct;
    the round identifier carries the clock reading. *)
Theorem makeRound_labels_ids (prev : option ColorKey) (lvl : Level)
    (w : World) (k : Cursor) :
  randomsOk w ->
  exists rd k',
    makeRound prev lvl w k = Some (rd, k')
    /\ rd_level rd = lvl
    /\ sw_label <$> rd_options rd ≡ₚ [rojo; azul; amarillo]
    /\ Forall (fun o => exists y, sw_id o = FreshId (sw_label o) y) (rd_options rd)
    /\ NoDup (sw_id <$> rd_options rd)
    /\ rid_now (rd_id rd) = clock w (ccur k).
Proof.
  intros Hw.
  destruct (proj1 (wp_run _ _ _ _)
              (wp_and _ _ _ _ _ (makeRound_spec prev lvl w k Hw)
                 (makeRound_ids prev lvl w k Hw)))
    as (rd & k' & Hrun & [Hspec _] & Hids & Hnow).
  pose proof Hspec as (_ & Hlvl & _).
  destruct (roundSpec_shape _ _ _ _ Hspec)
    as (cs & d1 & d2 & c1 & c2 & Hperm & Hlab & Hall & _ & (Hl1 & _) & (Hl2 & _) & _).
  assert (sw_label <$> rd_options rd ≡ₚ all) as Hlabels.
  { rewrite Hperm. cbn. by rewrite Hlab, Hl1, Hl2. }
  exists rd, k'. split; [done |]. split; [done |]. split; [done |].
  split; [done |]. split; [| done].
  apply ownId_NoDup; [done |]. rewrite Hlabels. apply all_NoDup.
Qed.

(** In a generated round only one option has the target's label. *)
Lemma roundSpec_unique prev lvl x rd cs d1 d2 c1 c2 o :
  rd_options rd ≡ₚ [cs; d1; d2] ->
  c1 <> rd_target rd -> c2 <> rd_target rd ->
  isBase c1 d1 -> isBase c2 d2 ->
  roundSpec prev lvl x rd ->
  o ∈ rd_options rd -> sw_label o = rd_target rd -> o = cs.
Proof.
  intros Hperm Hc1 Hc2 (Hl1 & _) (Hl2 & _) _ Hin Hlab. rewrite Hperm in Hin.
  apply elem_of_cons in Hin as [-> | Hin]; [done |].
  apply elem_of_cons in Hin as [-> | Hin]; [congruence |].
  apply list_elem_of_singleton in Hin as ->. congruence.
Qed.

Lemma pool_colour c lvl picked :
  picked ∈ SWATCHES c lvl ->
  sw_hex picked <> BASE_COLOR rojo /\ sw_hex picked <> BASE_COLOR azul
  /\ sw_hex picked <> BASE_COLOR amarillo.
Proof.
  destruct c, lvl; cbn; intros H;
    repeat (apply elem_of_cons in H as [-> | H]; [done |]);
    by apply elem_of_nil in H.
Qed.

Lemma BASE_COLOR_inj c c' : BASE_COLOR c = BASE_COLOR c' -> c = c'.
Proof. by destruct c, c'. Qed.

(** X9. The colours of a generated round.  At [easy] every option shows the
    base colour of its label.  At [medium] and [hard] the correct option shows
    a colour of the pool of its label and level, which is never the base
    colour.  At every level the three colours shown are pairwise distinct. *)
Theorem makeRound_colours (prev : option ColorKey) (lvl : Level)
    (w : World) (k : Cursor) :
  randomsOk w ->
  exists rd k',
    makeRound prev lvl w k = Some (rd, k')
    /\ (lvl = easy ->
        Forall (fun o => sw_hex o = BASE_COLOR (sw_label o)) (rd_options rd))
    /\ (lvl <> easy ->
        forall o, o ∈ rd_options rd -> sw_label o = rd_target rd ->
          sw_hex o ∈ (sw_hex <$> SWATCHES (rd_target rd) lvl)
          /\ sw_hex o <> BASE_COLOR (rd_target rd))
    /\ NoDup (sw_hex <$> rd_options rd).
Proof.
  intros Hw.
  destruct (proj1 (wp_run _ _ _ _) (makeRound_spec prev lvl w k Hw))
    as (rd & k' & Hrun & Hspec & _).
  destruct (roundSpec_shape _ _ _ _ Hspec)
    as (cs & d1 & d2 & c1 & c2 & Hperm & Hlab & Hall & [Hc1 Hc2] & Hd1 & Hd2
        & Heasy & Hhard).
  pose proof Hd1 as (Hl1 & Hh1 & _). pose proof Hd2 as (Hl2 & Hh2 & _).
  assert (c1 <> c2) as Hc12.
  { intros ->. pose proof all_NoDup as Hnd. rewrite <- Hall in Hnd.
    apply NoDup_cons in Hnd as [_ Hnd]. apply NoDup_cons in Hnd as [Hnin _].
    apply Hnin. by left. }
  exists rd, k'. split; [done |]. split; [| split].
  - intros Hl. destruct (Heasy Hl) as (Hlc & Hhc & _). rewrite Hperm.
    repeat constructor; congruence.
  - intros Hl o Hin Ho. destruct (Hhard Hl) as (picked & Hpick & Hhex).
    rewrite (roundSpec_unique _ _ _ _ _ _ _ _ _ _ Hperm Hc1 Hc2 Hd1 Hd2 Hspec Hin Ho).
    rewrite Hhex. split; [by apply list_elem_of_fmap_2 |].
    destruct (pool_colour _ _ _ Hpick) as (? & ? & ?).
    by destruct (rd_target rd).
  - rewrite Hperm. cbn. rewrite Hh1, Hh2.
    assert (sw_hex cs <> BASE_COLOR c1 /\ sw_hex cs <> BASE_COLOR c2) as [Hn1 Hn2].
    { destruct (decide (lvl = easy)) as [Hl | Hl].
      - destruct (Heasy Hl) as (_ & -> & _).
        split; intros Heq%BASE_COLOR_inj; congruence.
      - destruct (Hhard Hl) as (picked & Hpick & ->).
        destruct (pool_colour _ _ _ Hpick) as (? & ? & ?).
        split; [by destruct c1 | by destruct c2]. }
    rewrite !NoDup_cons. rewrite !elem_of_cons, !elem_of_nil.
    split; [by intros [| [| []]] |]. split; [| split; [by intros [] | constructor]].
    intros [Heq%BASE_COLOR_inj | []]. done.
Qed.

Lemma filter_showHint st rd :
  filter (fun sw => showHint st rd sw = true) (rd_options rd)
  = if hintOn st
    then filter (fun sw => sw_label sw = rd_target rd) (rd_options rd)
    else [].
Proof.
  unfold showHint. destruct (hintOn st); cbn [andb].
  - apply list_filter_iff. intros sw. by rewrite bool_decide_eq_true.
  - apply filter_none, Forall_forall. by intros sw _.
Qed.

(** X10. On a generated round the instruction is printed in the colour of
    the correct option: [find] always hits, the ['#000'] default is never
    used, and at [easy] the colour is the base colour of the target.  With the
    hint on exactly one option is highlighted, with it off none. *)
Theorem instructionColor_generated (prev : option ColorKey) (lvl : Level)
    (w : World) (k : Cursor) :
  randomsOk w ->
  exists rd k' o,
    makeRound prev lvl w k = Some (rd, k')
    /\ o ∈ rd_options rd /\ sw_label o = rd_target rd
    /\ instructionColor rd = sw_hex o
    /\ instructionColor rd <> "#000"
    /\ (lvl = easy -> instructionColor rd = BASE_COLOR (rd_target rd))
    /\ (forall st,
          length (filter (fun sw => showHint st rd sw = true) (rd_options rd))
          = if hintOn st then 1%nat else 0%nat).
Proof.
  intros Hw.
  destruct (proj1 (wp_run _ _ _ _) (makeRound_spec prev lvl w k Hw))
    as (rd & k' & Hrun & Hspec & _).
  destruct (roundSpec_shape _ _ _ _ Hspec)
    as (cs & d1 & d2 & c1 & c2 & Hperm & Hlab & Hall & [Hc1 Hc2] & Hd1 & Hd2
        & Heasy & Hhard).
  assert (cs ∈ rd_options rd) as Hin by (rewrite Hperm; by left).
  destruct (list_find_elem_of (fun o => sw_label o = rd_target rd)
              (rd_options rd) cs Hin Hlab) as [[i o] Hfind].
  pose proof Hfind as (Hi & Ho & _)%list_find_Some.
  apply list_elem_of_lookup_2 in Hi.
  assert (o = cs) as ->
    by exact (roundSpec_unique _ _ _ _ _ _ _ _ _ _ Hperm Hc1 Hc2 Hd1 Hd2 Hspec Hi Ho).
  assert (instructionColor rd = sw_hex cs) as Hcol
    by (unfold instructionColor; by rewrite Hfind).
  exists rd, k', cs. split; [done |]. split; [done |]. split; [done |].
  split; [done |]. rewrite Hcol. split; [| split].
  - destruct (decide (lvl = easy)) as [Hl | Hl].
    + destruct (Heasy Hl) as (_ & -> & _). by destruct (rd_target rd).
    + destruct (Hhard Hl) as (picked & Hpick & ->). revert Hpick.
      destruct (rd_target rd), lvl; cbn; intros H;
        repeat (apply elem_of_cons in H as [-> | H]; [done |]);
        by apply elem_of_nil in H.
  - intros Hl. by destruct (Heasy Hl) as (_ & -> & _).
  - intros st. rewrite filter_showHint. destruct (hintOn st); [| done].
    rewrite (Permutation_length
               (filter_Permutation (fun sw => sw_label sw = rd_target rd) _ _ Hperm)).
    destruct Hd1 as (Hl1 & _), Hd2 as (Hl2 & _).
    rewrite filter_cons_True by done.
    rewrite filter_cons_False by congruence.
    by rewrite filter_cons_False by congruence.
Qed.

(** ** Levels and policy, continued *)

(** X11. [nextLevel] moves one position in [easy, medium, hard] and stops at
    the ends: going up from [hard] or down from [easy] changes nothing, and
    away from the ends a step up undoes a step down and conversely. *)
Theorem nextLevel_laws (l : Level) :
  nextLevel hard up = hard
  /\ nextLevel easy down = easy
  /\ indexOf order (nextLevel l up) = Z.min (indexOf order l + 1) 2
  /\ indexOf order (nextLevel l down) = Z.max (indexOf order l - 1) 0
  /\ (l <> hard -> nextLevel (nextLevel l up) down = l)
  /\ (l <> easy -> nextLevel (nextLevel l down) up = l).
Proof. by destruct l. Qed.

(** X12. What the local policy can return.  The next success streak is below
    3 and the next high-frustration streak below 2, and neither is negative
    when the previous one is not; the suggested level is at most one position
    away from the current one; [ease] is only resolved at [F >= 0.65] with a
    previous high-frustration streak of at least 1. *)
Theorem localPolicy_range (frustration : Frustration) (lvl : Level)
    (h ss : Q) (correct : bool) :
  let d := localPolicy frustration lvl h ss correct in
  d_nextSuccessStreak d < 3
  /\ d_nextHighFrustrationStreak d < 2
  /\ (0 <= ss -> 0 <= d_nextSuccessStreak d)
  /\ (0 <= h -> 0 <= d_nextHighFrustrationStreak d)
  /\ (indexOf order lvl - 1 <= indexOf order (d_suggestedLevel d)
      <= indexOf order lvl + 1)%Z
  /\ (d_action d = ease -> 65 # 100 <= value frustration /\ 1 <= h).
Proof.
  cbn zeta. unfold localPolicy.
  set (action := policyAction _ _). set (candidate := candidateSuccess _ _).
  assert (action = ease -> 65 # 100 <= value frustration /\ 1 <= h) as Hease.
  { intros He. pose proof (policyAction_ease_high _ _ He) as HF. split; [done |].
    unfold action in He. rewrite policyAction_high in He by done.
    destruct (Num.geb (h + 1) 2) eqn:E; [| done]. apply geb_ge in E. lra. }
  assert (action <> ease ->
          nextHigh (value frustration) h < 2
          /\ (0 <= h -> 0 <= nextHigh (value frustration) h)) as Hhigh.
  { intros Hne. unfold nextHigh, isHigh.
    destruct (Num.geb (value frustration) (65 # 100)) eqn:E; [| split; [done | lra]].
    apply geb_ge in E. split; [| lra].
    unfold action in Hne. rewrite policyAction_high in Hne by done.
    destruct (Num.geb (h + 1) 2) eqn:E2; [done |]. by apply geb_lt in E2. }
  destruct (decide (action = ease)) as [Ha | Ha]; cbn.
  - split; [done |]. split; [done |]. split; [lra |]. split; [lra |].
    split; [by destruct lvl | done].
  - destruct (Hhigh Ha) as [Hh1 Hh2].
    destruct (Num.geb candidate 3) eqn:Ec; cbn.
    + split; [done |]. split; [done |]. split; [lra |]. split; [done |].
      split; [by destruct lvl | done].
    + apply geb_lt in Ec. split; [done |]. split; [done |].
      split; [| split; [done | split; [lia | done]]].
      intros Hss. unfold candidate, candidateSuccess. destruct correct; lra.
Qed.

(** X13. The rule logged for a local decision.  [none] means the level did
    not change and [levelup_by_streak] that it rose one step on a third
    correct trial under [keep].  A level-up resolved together with [support]
    is logged as [support_by_frustration], and a third correct trial at
    [hard] is logged as [none] although the streak is consumed. *)
Theorem ruleOf_localPolicy (frustration : Frustration) (lvl : Level)
    (h ss : Q) (correct : bool) :
  let d := localPolicy frustration lvl h ss correct in
  let rule := ruleOf (d_action d) (d_suggestedLevel d) lvl in
  (rule = none -> d_action d = keep /\ d_suggestedLevel d = lvl)
  /\ (rule = levelup_by_streak ->
      d_action d = keep /\ correct = true /\ 3 <= ss + 1
      /\ lvl <> hard /\ d_suggestedLevel d = nextLevel lvl up)
  /\ (rule = ease_by_frustration <-> d_action d = ease)
  /\ (d_action d = support -> correct = true -> 3 <= ss + 1 -> lvl <> hard ->
      rule = support_by_frustration /\ d_suggestedLevel d <> lvl
      /\ d_nextSuccessStreak d = 0)
  /\ (d_action d = keep -> correct = true -> 3 <= ss + 1 -> lvl = hard ->
      rule = none /\ d_nextSuccessStreak d = 0).
Proof.
  cbn zeta. unfold localPolicy.
  set (action := policyAction _ _). cbn [d_action d_suggestedLevel d_nextSuccessStreak].
  destruct (decide (action = ease)) as [Ha | Ha]; cbn [fst snd].
  { rewrite Ha. cbn. repeat split; try done. }
  unfold candidateSuccess.
  destruct correct.
  - destruct (Num.geb (ss + 1) 3) eqn:Ec; cbn [fst snd].
    + apply geb_ge in Ec.
      destruct action; [| | done]; destruct lvl; cbn; repeat split; try done;
        try (intros; congruence).
    + apply geb_lt in Ec.
      destruct action; [| | done]; cbn; repeat split; try done;
        try (case_decide; done); intros; try lra; try congruence.
  - assert (Num.geb 0 3 = false) as -> by done. cbn [fst snd].
    destruct action; [| | done]; cbn; repeat split; try done;
      try (case_decide; done); intros; congruence.
Qed.

(** ** Statistics *)

Lemma countQ_pos n : (0 < n)%nat -> 0 < countQ n.
Proof. intros H. unfold countQ. change 0 with (inject_Z 0). rewrite <- Zlt_Qlt. lia. Qed.

(** [Math.round((part / total) * 100)] in integer arithmetic. *)
Lemma percent_div (part total : nat) :
  (0 < total)%nat ->
  percent part total
  = ((200 * Z.of_nat part + Z.of_nat total) / (2 * Z.of_nat total))%Z.
Proof.
  intros Ht. unfold percent, Num.round.
  set (P := Z.of_nat part). set (T := Z.of_nat total).
  assert (0 < T)%Z as HT by lia.
  set (z := ((200 * P + T) / (2 * T))%Z).
  pose proof (Z.mul_div_le (200 * P + T) (2 * T) ltac:(lia)) as Hl.
  pose proof (Z.mul_succ_div_gt (200 * P + T) (2 * T) ltac:(lia)) as Hu.
  fold z in Hl, Hu.
  pose proof (countQ_pos total Ht) as HTq. unfold countQ in *. fold T P in HTq |- *.
  set (x := inject_Z P / inject_Z T * 100 + (1 # 2)).
  assert (x * (2 * inject_Z T) == inject_Z (200 * P + T)) as Hx.
  { unfold x. rewrite inject_Z_plus, inject_Z_mult. change (inject_Z 200) with 200.
    field. intros HT0. rewrite HT0 in HTq. by apply Qlt_irrefl in HTq. }
  assert (0 < 2 * inject_Z T) as H2T
    by (clear -HTq; revert HTq; generalize (inject_Z T); intros; lra).
  apply Qfloor_unique. split.
  - apply (Qmult_le_r _ _ _ H2T). rewrite Hx.
    change 2 with (inject_Z 2). rewrite <- !inject_Z_mult, <- Zle_Qle. lia.
  - apply (Qmult_lt_r _ _ _ H2T). rewrite Hx.
    change 2 with (inject_Z 2). change 1 with (inject_Z 1).
    rewrite <- inject_Z_plus, <- !inject_Z_mult, <- Zlt_Qlt. lia.
Qed.

Lemma percent_range (part total : nat) :
  (0 < total)%nat -> (part <= total)%nat -> (0 <= percent part total <= 100)%Z.
Proof.
  intros Ht Hp. rewrite percent_div by done. split.
  - apply Z.div_pos; lia.
  - apply Z.lt_succ_r, Z.div_lt_upper_bound; lia.
Qed.

Lemma percent_full (part total : nat) :
  (0 < total < 200)%nat -> (part <= total)%nat ->
  percent part total = 100%Z <-> part = total.
Proof.
  intros Ht Hp. rewrite percent_div by lia. split.
  - intros H.
    pose proof (Z.mul_div_le (200 * Z.of_nat part + Z.of_nat total)
                  (2 * Z.of_nat total) ltac:(lia)) as Hl.
    rewrite H in Hl. lia.
  - intros ->. symmetry. apply Z.div_unique with (r := Z.of_nat total); lia.
Qed.

Lemma percent_zero (part total : nat) :
  (0 < total < 200)%nat ->
  percent part total = 0%Z <-> part = 0%nat.
Proof.
  intros Ht. rewrite percent_div by lia. split.
  - intros H.
    pose proof (Z.mul_succ_div_gt (200 * Z.of_nat part + Z.of_nat total)
                  (2 * Z.of_nat total) ltac:(lia)) as Hu.
    rewrite H in Hu. lia.
  - intros ->. apply Z.div_small. lia.
Qed.

(** X14. The statistics panel.  The correct count never exceeds the total; an
    empty log has accuracy 0 without dividing; the accuracy is a percentage;
    and for a log within the cap it is 100 exactly when every attempt is
    correct and 0 exactly when none is. *)
Theorem stats_spec (log : list Attempt) :
  let s := stats log in
  s_total s = length log
  /\ (s_correct s <= s_total s)%nat
  /\ (0 <= s_accuracy s <= 100)%Z
  /\ (log = [] -> s_accuracy s = 0%Z)
  /\ ((0 < length log <= MAX_ATTEMPTS)%nat ->
      (s_accuracy s = 100%Z <-> Forall (fun a => a_correct a = true) log)
      /\ (s_accuracy s = 0%Z <-> Forall (fun a => a_correct a <> true) log)).
Proof.
  cbn zeta. unfold stats. cbn [s_total s_correct s_accuracy].
  set (P := fun a => a_correct a = true).
  pose proof (length_filter P log) as Hle.
  split; [done |]. split; [done |]. split; [| split].
  - case_decide; [lia |]. apply percent_range; [lia | done].
  - by intros ->.
  - intros [Hpos Hcap]. unfold MAX_ATTEMPTS in Hcap.
    case_decide; [lia |]. split.
    + rewrite percent_full by lia. split.
      * intros Heq. apply Forall_forall. intros a Ha.
        destruct (decide (P a)) as [| Hn]; [done |].
        pose proof (length_filter_lt P log a Ha Hn). lia.
      * intros Hall. f_equal. clear -Hall.
        induction Hall as [| a l Ha _ IH]; [done |].
        rewrite filter_cons_True by done. by rewrite IH.
    + rewrite percent_zero by lia. rewrite length_zero_iff_nil. split.
      * intros Hnil. apply Forall_forall. intros a Ha Hc.
        exact (filter_nil_not_elem_of P log a Hnil Hc Ha).
      * apply filter_none.
Qed.

Lemma countQ_S n : countQ (S n) == countQ n + 1.
Proof. unfold countQ. by rewrite Nat2Z.inj_succ, <- Z.add_1_r, inject_Z_plus. Qed.

Lemma sumOf_bounds (f : Attempt -> Q) (log : list Attempt) (acc : Q) :
  Forall (fun a => 0 <= f a) log ->
  acc <= foldl (fun sum a => sum + f a) acc log
  /\ (Forall (fun a => f a <= 1) log ->
      foldl (fun sum a => sum + f a) acc log <= acc + countQ (length log)).
Proof.
  intros Hnn. revert acc. induction Hnn as [| a l Ha _ IH]; intros acc.
  - cbn. split; [lra |]. intros _. change (countQ 0) with 0. lra.
  - cbn [foldl length]. destruct (IH (acc + f a)) as [Hl Hu]. split; [lra |].
    intros Hle. apply Forall_cons in Hle as [Ha1 Hle].
    specialize (Hu Hle). rewrite countQ_S.
    set (n := countQ _) in *. set (s := foldl _ _ _) in *. lra.
Qed.

Lemma roundedMean_range (sum : Q) (total : nat) (scale : Z) :
  (0 < total)%nat -> (0 < scale)%Z -> 0 <= sum ->
  0 <= roundedMean sum total scale
  /\ (sum <= countQ total -> roundedMean sum total scale <= 1).
Proof.
  intros Ht Hs Hsum. unfold roundedMean, Num.round.
  pose proof (countQ_pos total Ht) as HT.
  assert (0 < inject_Z scale) as HS.
  { change 0 with (inject_Z 0). by rewrite <- Zlt_Qlt. }
  set (Sc := inject_Z scale) in *.
  assert (0 <= sum / countQ total) as Hx0 by (by apply Qle_shift_div_l; lra).
  set (x := sum / countQ total) in *.
  assert (0 <= x * Sc) as HxS by (by apply Qmult_le_0_compat; lra).
  split.
  - apply Qle_shift_div_l; [done |].
    destruct (Qfloor_bounds (x * Sc + (1 # 2)) 0 (Qfloor (x * Sc + (1 # 2)))) as [Hl _].
    { change (inject_Z 0) with 0. lra. }
    { pose proof (Qlt_floor (x * Sc + (1 # 2))) as H. by rewrite inject_Z_plus in H. }
    change (inject_Z 0) with 0 in Hl. set (y := inject_Z (Qfloor _)) in *. lra.
  - intros Hle. apply Qle_shift_div_r; [done |].
    assert (x <= 1) as Hx1 by (apply Qle_shift_div_r; lra).
    assert (x * Sc <= Sc) as HxS1.
    { rewrite <- (Qmult_1_l Sc) at 2. apply Qmult_le_compat_r; lra. }
    destruct (Qfloor_bounds (x * Sc + (1 # 2)) (Qfloor (x * Sc + (1 # 2))) scale)
      as [_ Hu]; [apply Qfloor_le | |].
    { fold Sc. lra. }
    fold Sc in Hu. set (y := inject_Z (Qfloor _)) in *. lra.
Qed.

(** X15. The dashboard.  It agrees with the statistics panel on total and
    accuracy; its three percentages lie between 0 and 100; an empty log gives
    zeros without dividing; the averages are not negative, and the average
    frustration is at most 1 when every logged frustration is. *)
Theorem dash_spec (log : list Attempt) :
  let d := dash log in
  dash_total d = s_total (stats log)
  /\ dash_accuracy d = s_accuracy (stats log)
  /\ ((0 <= dash_supportPct d <= 100)%Z /\ (0 <= dash_easePct d <= 100)%Z
      /\ (0 <= dash_backendPct d <= 100)%Z)
  /\ (log = [] ->
      dash_avgLatency d = 0 /\ dash_avgFrustration d = 0 /\ dash_hintAvg d = 0
      /\ dash_supportPct d = 0%Z /\ dash_easePct d = 0%Z
      /\ dash_backendPct d = 0%Z)
  /\ (Forall (fun a => 0 <= a_latencySec a) log -> 0 <= dash_avgLatency d)
  /\ (Forall (fun a => 0 <= a_hintsUsed a) log -> 0 <= dash_hintAvg d)
  /\ (Forall (fun a => 0 <= a_frustration a /\ a_frustration a <= 1) log ->
      0 <= dash_avgFrustration d /\ dash_avgFrustration d <= 1).
Proof.
  cbn zeta. unfold dash, stats. cbn [s_total s_accuracy].
  destruct (decide (length log = 0%nat)) as [Hz | Hnz]; cbn.
  { rewrite Hz. repeat split; try done; lia. }
  assert (0 < length log)%nat as Hpos by lia.
  split; [done |]. split; [done |].
  split; [repeat split; apply percent_range; try done; apply length_filter |].
  split; [by intros -> |].
  split; [| split].
  - intros H. apply roundedMean_range; [done | done |].
    by apply (sumOf_bounds a_latencySec log 0).
  - intros H. apply roundedMean_range; [done | done |].
    by apply (sumOf_bounds a_hintsUsed log 0).
  - intros H.
    assert (Forall (fun a => 0 <= a_frustration a) log) as H0
      by (eapply Forall_impl; [exact H |]; by intros a []).
    assert (Forall (fun a => a_frustration a <= 1) log) as H1
      by (eapply Forall_impl; [exact H |]; by intros a []).
    destruct (sumOf_bounds a_frustration log 0 H0) as [Hl Hu].
    specialize (Hu H1).
    destruct (roundedMean_range (sumOf a_frustration log) (length log) 100)
      as [Hr0 Hr1]; [done | done | done |].
    split; [done |]. apply Hr1. unfold sumOf.
    set (s := foldl _ _ _) in *. set (n := countQ _) in *. lra.
Qed.

(** ** Persistence *)

(** X16. [safeLoad] never throws and returns a value in one case only: the
    slot holds a text that parses to an object whose member [v] is the number
    1 and whose member [attempts] is an array; the value returned is that
    object.  What the load effect then installs has at most 100 entries. *)
Theorem safeLoad_accepts (slot : Slot) (loaded : json) :
  (safeLoad slot = Some loaded
   <-> slot = SlotText (Some loaded)
       /\ exists members v items,
            loaded = JObj members
            /\ lookupMember "v" members = Some (JNum v) /\ v == 1
            /\ lookupMember "attempts" members = Some (JArr items))
  /\ (forall items, loadEffect slot = Some items ->
        (length items <= MAX_ATTEMPTS)%nat).
Proof.
  split.
  - split.
    + destruct slot as [| | [parsed |]]; try done. cbn [safeLoad].
      destruct (truthy parsed) eqn:Htr; [| done]. cbn [negb].
      destruct parsed as [| b | q | str | l | members]; try done.
      cbn [getMember].
      destruct (lookupMember "v" members) as [[| | v | | |] |] eqn:Hv; try done.
      destruct (Qeq_bool v STORAGE_VERSION) eqn:Hq; [| done].
      destruct (lookupMember "attempts" members) as [[| | | | items |] |] eqn:Ha;
        try done.
      intros [= <-]. split; [done |]. exists members, v, items.
      by apply Qeq_bool_iff in Hq.
    + intros (-> & members & v & items & -> & Hv & Hq & Ha).
      cbn. rewrite Hv. apply Qeq_bool_iff in Hq. unfold STORAGE_VERSION.
      by rewrite Hq, Ha.
  - intros items. unfold loadEffect.
    destruct (safeLoad slot) as [p |]; [| done].
    destruct (getMember p "attempts") as [[| | | | l |] |]; try done.
    intros [= <-]. rewrite length_take. lia.
Qed.

(** X17. Saving then loading.  What the save effect writes for a log is
    accepted by [safeLoad], whatever the slot held, and the load effect
    restores the same entries, cut to the cap; saving what was loaded and
    loading again changes nothing; when [setItem] throws the slot still loads
    as before. *)
Theorem safeSave_safeLoad (items : list json) (data : json) (slot : Slot) :
  safeLoad (safeSave (persisted items) false slot) = Some (persisted items)
  /\ loadEffect (safeSave (persisted items) false slot)
     = Some (take MAX_ATTEMPTS items)
  /\ loadEffect (safeSave (persisted (take MAX_ATTEMPTS items)) false slot)
     = Some (take MAX_ATTEMPTS items)
  /\ ((length items <= MAX_ATTEMPTS)%nat ->
      loadEffect (safeSave (persisted items) false slot) = Some items)
  /\ loadEffect (safeSave data true slot) = loadEffect slot.
Proof.
  assert (forall l, loadEffect (SlotText (Some (persisted l)))
                    = Some (take MAX_ATTEMPTS l)) as Hload.
  { intros l. unfold loadEffect.
    change (safeLoad (SlotText (Some (persisted l)))) with (Some (persisted l)).
    cbv beta iota.
    change (getMember (persisted l) "attempts")
      with (Some (JArr (take MAX_ATTEMPTS l))).
    cbv beta iota. by rewrite take_take, Nat.min_id. }
  split; [done |]. split; [apply Hload |]. split; [| split; [| done]].
  - cbn [safeSave]. by rewrite Hload, take_take, Nat.min_id.
  - intros Hlen. cbn [safeSave]. rewrite Hload. by rewrite take_ge.
Qed.

(** ** Session steps *)

Lemma roundSpec_roundOk prev lvl x rd : roundSpec prev lvl x rd -> roundOk rd.
Proof.
  intros Hspec.
  destruct (roundSpec_shape _ _ _ _ Hspec)
    as (cs & d1 & d2 & c1 & c2 & Hperm & Hlab & Hall & _ & (Hl1 & _) & (Hl2 & _) & _).
  unfold roundOk. rewrite Hperm. cbn. by rewrite Hlab, Hl1, Hl2.
Qed.

Lemma makeRound_run prev lvl w k :
  randomsOk w ->
  exists rd k1,
    makeRound prev lvl w k = Some (rd, k1)
    /\ (forall p, prev = Some p -> rd_target rd <> p)
    /\ rd_level rd = lvl /\ roundOk rd.
Proof.
  intros Hw.
  destruct (proj1 (wp_run _ _ _ _) (makeRound_spec prev lvl w k Hw))
    as (rd & k1 & Hrun & Hspec & _).
  exists rd, k1. split; [done |]. split; [| split].
  - intros p ->. destruct Hspec as (Ht & _).
    apply list_elem_of_lookup_2, candidatesFor_elem in Ht as [_ Hne]. congruence.
  - by destruct Hspec as (_ & Hl & _).
  - by eapply roundSpec_roundOk.
Qed.


Lemma startRound_run p lvl st w k :
  randomsOk w ->
  exists r k1,
    makeRound (Some p) lvl w k = Some (r, k1)
    /\ rd_target r <> p /\ rd_level r = lvl /\ roundOk r
    /\ startRound p lvl st w k
       = Some (started r (clock w (ccur k1)) st,
               {| rcur := rcur k1; ccur := S (ccur k1) |}).
Proof.
  intros Hw. destruct (makeRound_run (Some p) lvl w k Hw)
    as (r & k1 & Hrun & Hne & Hl & Hok).
  exists r, k1. split; [done |]. split; [by apply Hne |]. split; [done |].
  split; [done |]. unfold startRound, bind. by rewrite Hrun.
Qed.


(** The wrong pick of an option that is not the target is never eased by a
    correct one: with the three error signals at 0 the local action is not
    [ease]. *)
Lemma localDecision_correct_not_ease swatch latencySec st lvl h ss :
  d_action (localDecision (signalsOf true swatch latencySec st) lvl h ss true)
  <> ease.
Proof.
  destruct (computeFrustration_correct (hintsUsed st) latencySec) as (_ & _ & _ & Hv).
  apply localPolicy_low. eapply Qle_lt_trans; [apply Hv | done].
Qed.

(** X18. A wrong pick that the local policy does not ease keeps the trial:
    the round and the level stay, the success streak is reset, both error
    counters grow by one, and the perseveration counter grows by one exactly
    when the option is the one picked wrongly just before; otherwise that
    option is remembered.  Only the 400 ms hint timer is left. *)
Theorem onPick_wrong_local (swatch : Swatch) (resp : Response) (st : State)
    (rnd : Round) (w : World) (k : Cursor) :
  round st = Some rnd ->
  sw_label swatch <> rd_target rnd ->
  failed resp ->
  let d := localDecision
             (signalsOf false swatch
                (latencyOf (clock w (ccur k)) (roundStartTs st)) st)
             (level st) (highFrustrationStreak st) (successStreak st) false in
  let again := sameAsLastWrong (lastWrongChoice st) swatch in
  d_action d <> ease ->
  exists st' k',
    onPick swatch resp st w k = Some (Stepped st' HintOffAfter400, k')
    /\ round st' = Some rnd
    /\ level st' = level st
    /\ successStreak st' = 0
    /\ errorsConsecutive st' = errorsConsecutive st + 1
    /\ retriesSameRound st' = retriesSameRound st + 1
    /\ perseveration st'
       = (if again then perseveration st + 1 else perseveration st)
    /\ lastWrongChoice st'
       = (if again then lastWrongChoice st else Some (sw_id swatch))
    /\ hintsUsed st' = hintsUsed st
    /\ hintOn st' = (if decide (d_action d = support) then true else hintOn st)
    /\ feedback st' = fb_wrong.
Proof.
  intros Hround Hwrong Hfailed d again Hne.
  assert (d_suggestedLevel d = level st /\ d_nextSuccessStreak d = 0) as [Hl Hs].
  { unfold d, localDecision, localPolicy.
    cbn [d_action d_suggestedLevel d_nextSuccessStreak] in *.
    destruct (decide (policyAction _ _ = ease)) as [He | _]; [by destruct Hne |].
    by cbn. }
  rewrite (onPick_fallback _ _ _ _ _ Hround _ Hfailed).
  rewrite (bool_decide_eq_false_2 _ Hwrong). fold d.
  rewrite advance_not_ease by done.
  eexists _, _. split; [done |].
  cbn [applyDecision afterMetrics round level successStreak errorsConsecutive
       retriesSameRound perseveration lastWrongChoice hintsUsed hintOn feedback
       nextErrorsConsecutive nextRetriesSameRound nextPerseveration].
  rewrite Hl, Hs. repeat split; [done | by destruct (decide _)].
Qed.

(** X19. When the local policy resolves [ease] the pick was a wrong one, and
    [onPick] at once installs a new round one level down whose target differs
    from the current one, with every per-trial counter, the hint tally and
    both streaks at 0; the attempt logged carries [ease_by_frustration], and
    no timer is left. *)
Theorem onPick_ease_local (swatch : Swatch) (resp : Response) (st : State)
    (rnd : Round) (w : World) (k : Cursor) :
  randomsOk w ->
  round st = Some rnd ->
  failed resp ->
  let correct := bool_decide (sw_label swatch = rd_target rnd) in
  let d := localDecision
             (signalsOf correct swatch
                (latencyOf (clock w (ccur k)) (roundStartTs st)) st)
             (level st) (highFrustrationStreak st) (successStreak st) correct in
  d_action d = ease ->
  sw_label swatch <> rd_target rnd
  /\ exists st' k' rd a,
       onPick swatch resp st w k = Some (Stepped st' NoTimer, k')
       /\ round st' = Some rd
       /\ rd_target rd <> rd_target rnd
       /\ rd_level rd = nextLevel (level st) down
       /\ level st' = nextLevel (level st) down
       /\ (errorsConsecutive st' = 0 /\ retriesSameRound st' = 0
           /\ perseveration st' = 0 /\ lastWrongChoice st' = None
           /\ hintsUsed st' = 0 /\ hintOn st' = false)
       /\ (successStreak st' = 0 /\ highFrustrationStreak st' = 0)
       /\ attempts st' !! 0%nat = Some a
       /\ a_rule a = ease_by_frustration
       /\ a_levelAfter a = nextLevel (level st) down.
Proof.
  intros Hw Hround Hfailed correct d Hease.
  assert (sw_label swatch <> rd_target rnd) as Hwrong.
  { intros Heq. unfold d, correct in Hease.
    rewrite (bool_decide_eq_true_2 _ Heq) in Hease.
    by apply localDecision_correct_not_ease in Hease. }
  split; [done |].
  assert (d_suggestedLevel d = nextLevel (level st) down
          /\ d_nextSuccessStreak d = 0
          /\ d_nextHighFrustrationStreak d = 0) as (Hl & Hs & Hh).
  { unfold d, localDecision, localPolicy in *.
    cbn [d_action d_suggestedLevel d_nextSuccessStreak
         d_nextHighFrustrationStreak] in *.
    destruct (decide (policyAction _ _ = ease)) as [_ | Hn]; [done | by destruct Hn]. }
  rewrite (onPick_fallback _ _ _ _ _ Hround _ Hfailed). fold correct d.
  set (a := attemptOf _ _ _ _ _ _ _ _).
  set (st2 := applyDecision a d st _).
  destruct (startRound_run (rd_target rnd) (d_suggestedLevel d) st2 w
              {| rcur := rcur k; ccur := S (S (ccur k)) |} Hw)
    as (r & k1 & _ & Hne & Hlvl & _ & Hstart).
  unfold advance. destruct (decide (d_action d = ease)) as [_ | Hn]; [| done].
  unfold bind. rewrite Hstart.
  eexists _, _, r, a. split; [done |].
  cbn [started round level errorsConsecutive retriesSameRound perseveration
       lastWrongChoice hintsUsed hintOn successStreak highFrustrationStreak
       attempts].
  split; [done |]. split; [done |]. split; [by rewrite Hlvl |].
  subst st2. cbn [applyDecision level successStreak highFrustrationStreak attempts].
  rewrite Hl, Hs, Hh. split.
  { destruct (decide (nextLevel (level st) down <> level st)) as [| Hn]; [done |].
    cbn [afterMetrics level].
    by destruct (decide (nextLevel (level st) down = level st)). }
  split; [done |]. split; [done |]. split; [done |].
  subst a. cbn [attemptOf a_rule a_levelAfter]. by rewrite Hease, Hl.
Qed.

(** X20. A correct pick decided locally, followed by its 700 ms callback: the
    pick leaves the timer and no new round; when the callback runs, the new
    round has another target and the level the pick suggested, which is the
    level of the state, and the per-trial counters and the hint tally are 0.
    The log and both streaks are those the pick left. *)
Theorem onPick_correct_then_timer (swatch : Swatch) (resp : Response)
    (st : State) (rnd : Round) (w : World) (k : Cursor) :
  randomsOk w ->
  round st = Some rnd ->
  sw_label swatch = rd_target rnd ->
  failed resp ->
  exists st' lvl k' st'' k'' rd,
    onPick swatch resp st w k
    = Some (Stepped st' (NextRoundAfter700 (rd_target rnd) lvl), k')
    /\ round st' = Some rnd /\ level st' = lvl
    /\ (errorsConsecutive st' = 0 /\ retriesSameRound st' = 0
        /\ perseveration st' = 0 /\ lastWrongChoice st' = None)
    /\ runTimer (NextRoundAfter700 (rd_target rnd) lvl) st' w k' = Some (st'', k'')
    /\ round st'' = Some rd
    /\ rd_target rd <> rd_target rnd
    /\ rd_level rd = level st''
    /\ level st'' = lvl
    /\ (errorsConsecutive st'' = 0 /\ retriesSameRound st'' = 0
        /\ perseveration st'' = 0 /\ lastWrongChoice st'' = None
        /\ hintsUsed st'' = 0 /\ hintOn st'' = false)
    /\ attempts st'' = attempts st'
    /\ successStreak st'' = successStreak st'
    /\ highFrustrationStreak st'' = highFrustrationStreak st'.
Proof.
  intros Hw Hround Hcorrect Hfailed.
  rewrite (onPick_fallback _ _ _ _ _ Hround _ Hfailed).
  rewrite (bool_decide_eq_true_2 _ Hcorrect).
  set (d := localDecision _ _ _ _ _).
  assert (d_action d <> ease) as Hne by apply localDecision_correct_not_ease.
  rewrite advance_not_ease by done.
  set (a := attemptOf _ _ _ _ _ _ _ _).
  set (st' := applyDecision a d st _).
  assert (level st' = d_suggestedLevel d) as Hl.
  { subst st'. cbn [applyDecision level afterMetrics].
    destruct (decide (d_suggestedLevel d <> level st)) as [| Hn]; [done |].
    by destruct (decide (d_suggestedLevel d = level st)). }
  destruct (startRound_run (rd_target rnd) (d_suggestedLevel d) st' w
              {| rcur := rcur k; ccur := S (S (ccur k)) |} Hw)
    as (r & k1 & _ & Hner & Hlvl & _ & Hstart).
  eexists st', _, _, _, _, r. split; [done |].
  split; [by subst st' |]. split; [done |]. split; [by subst st' |].
  cbn [runTimer]. split; [apply Hstart |].
  cbn [started round level errorsConsecutive retriesSameRound perseveration
       lastWrongChoice hintsUsed hintOn successStreak highFrustrationStreak
       attempts].
  rewrite Hlvl, Hl. by repeat split.
Qed.

(** ** Session invariants *)


Section Invariant.
Variable w : World.
Hypothesis Hw : randomsOk w.








End Invariant.





(** ** Worked examples, continued *)

Lemma clamp_spec_witness :
  0 <= 1 /\ 0 <= (1 # 2) /\ (1 # 2) <= 1 /\ clamp (1 # 2) 0 1 == 1 # 2.
Proof.
  split; [qcompute |]. split; [qcompute |]. split; [qcompute |].
  apply (proj1 (proj2 (clamp_spec (1 # 2) 1 0 1 ltac:(qcompute)))); qcompute.
Defined.

Lemma computeFrustration_mono_witness :
  signalsLe (Sample.signals 1 0 1 3 0) (Sample.signals 2 1 1 9 0)
  /\ value (computeFrustration (Sample.signals 1 0 1 3 0))
     <= value (computeFrustration (Sample.signals 2 1 1 9 0)).
Proof.
  assert (signalsLe (Sample.signals 1 0 1 3 0) (Sample.signals 2 1 1 9 0)) as H
    by (repeat split; qcompute).
  split; [exact H |].
  apply (computeFrustration_mono _ _ H).
Defined.

Lemma computeFrustration_extremes_witness :
  3 <= 4 /\ 2 <= 2 /\ 2 <= 5 /\ 12 <= 30 /\ 2 <= 2
  /\ value (computeFrustration (Sample.signals 4 2 5 30 2)) == 1.
Proof.
  repeat (split; [qcompute |]).
  apply (proj1 (computeFrustration_extremes (Sample.signals 4 2 5 30 2)));
    qcompute.
Defined.

Lemma latency_component_witness :
  sig_latencySec (Sample.signals 0 0 0 (latencyOf 2900 0) 0) = latencyOf 2900 0
  /\ (2900 - 0 < 3500)%Z
  /\ fc_t (components (computeFrustration
                         (Sample.signals 0 0 0 (latencyOf 2900 0) 0))) == 0.
Proof.
  split; [reflexivity |]. split; [lia |].
  apply (proj1 (latency_component 2900 0
                  (Sample.signals 0 0 0 (latencyOf 2900 0) 0) eq_refl)).
  lia.
Defined.

Lemma shuffle_permutes_witness :
  randomsOk Sample.w
  /\ exists out k',
       shuffle [rojo; azul; amarillo] Sample.w Sample.k = Some (out, k')
       /\ out ≡ₚ [rojo; azul; amarillo].
Proof.
  split; [apply Sample_randomsOk |].
  destruct (shuffle_permutes [rojo; azul; amarillo] Sample.w Sample.k
              Sample_randomsOk) as (out & Hrun & Hperm & _).
  by eexists out, _.
Defined.



Lemma makeRound_labels_ids_witness :
  randomsOk Sample.w
  /\ exists rd k',
       makeRound None hard Sample.w Sample.k = Some (rd, k')
       /\ NoDup (sw_id <$> rd_options rd).
Proof.
  split; [apply Sample_randomsOk |].
  destruct (makeRound_labels_ids None hard Sample.w Sample.k Sample_randomsOk)
    as (rd & k' & Hrun & _ & _ & _ & Hnd & _).
  by exists rd, k'.
Defined.

Lemma makeRound_colours_witness :
  randomsOk Sample.w
  /\ exists rd k',
       makeRound (Some azul) medium Sample.w Sample.k = Some (rd, k')
       /\ NoDup (sw_hex <$> rd_options rd).
Proof.
  split; [apply Sample_randomsOk |].
  destruct (makeRound_colours (Some azul) medium Sample.w Sample.k Sample_randomsOk)
    as (rd & k' & Hrun & _ & _ & Hnd).
  by exists rd, k'.
Defined.

Lemma instructionColor_generated_witness :
  randomsOk Sample.w
  /\ exists rd k',
       makeRound None easy Sample.w Sample.k = Some (rd, k')
       /\ instructionColor rd <> "#000".
Proof.
  split; [apply Sample_randomsOk |].
  destruct (instructionColor_generated None easy Sample.w Sample.k Sample_randomsOk)
    as (rd & k' & o & Hrun & _ & _ & _ & Hne & _).
  by exists rd, k'.
Defined.

Lemma nextLevel_laws_witness :
  medium <> hard /\ nextLevel (nextLevel medium up) down = medium.
Proof.
  split; [discriminate |].
  apply (proj1 (proj2 (proj2 (proj2 (proj2 (nextLevel_laws medium)))))).
  discriminate.
Defined.

Lemma localPolicy_range_witness :
  d_action (localPolicy (Sample.valued (90 # 100)) hard 1 2 false) = ease
  /\ 65 # 100 <= value (Sample.valued (90 # 100)) /\ 1 <= 1.
Proof.
  split; [reflexivity |].
  apply (proj2 (proj2 (proj2 (proj2 (proj2
           (localPolicy_range (Sample.valued (90 # 100)) hard 1 2 false)))))).
  reflexivity.
Defined.

Lemma ruleOf_localPolicy_witness :
  d_action (localPolicy (Sample.valued (50 # 100)) easy 0 2 true) = support
  /\ true = true /\ 3 <= 2 + 1 /\ easy <> hard
  /\ ruleOf (d_action (localPolicy (Sample.valued (50 # 100)) easy 0 2 true))
       (d_suggestedLevel (localPolicy (Sample.valued (50 # 100)) easy 0 2 true))
       easy = support_by_frustration
  /\ d_suggestedLevel (localPolicy (Sample.valued (50 # 100)) easy 0 2 true) <> easy.
Proof.
  split; [reflexivity |]. split; [reflexivity |]. split; [qcompute |].
  split; [discriminate |].
  destruct (proj1 (proj2 (proj2 (proj2
              (ruleOf_localPolicy (Sample.valued (50 # 100)) easy 0 2 true))))
              eq_refl eq_refl ltac:(qcompute) ltac:(discriminate))
    as (Hrule & Hlvl & _).
  by split.
Defined.

Lemma stats_spec_witness :
  (0 < length [Sample.attempt 1; Sample.attempt 2] <= MAX_ATTEMPTS)%nat
  /\ Forall (fun a => a_correct a = true) [Sample.attempt 1; Sample.attempt 2]
  /\ s_accuracy (stats [Sample.attempt 1; Sample.attempt 2]) = 100%Z.
Proof.
  assert (0 < length [Sample.attempt 1; Sample.attempt 2] <= MAX_ATTEMPTS)%nat
    as Hlen by (unfold MAX_ATTEMPTS; simpl; lia).
  assert (Forall (fun a => a_correct a = true)
            [Sample.attempt 1; Sample.attempt 2]) as Hall
    by (repeat constructor).
  split; [exact Hlen |]. split; [exact Hall |].
  apply (proj1 (proj2 (proj2 (proj2 (proj2
           (stats_spec [Sample.attempt 1; Sample.attempt 2])))) Hlen)).
  exact Hall.
Defined.

Lemma dash_spec_witness :
  Forall (fun a => 0 <= a_frustration a /\ a_frustration a <= 1)
    [Sample.attempt 1; Sample.attempt 2]
  /\ dash_avgFrustration (dash [Sample.attempt 1; Sample.attempt 2]) <= 1.
Proof.
  assert (Forall (fun a => 0 <= a_frustration a /\ a_frustration a <= 1)
            [Sample.attempt 1; Sample.attempt 2]) as H
    by (repeat constructor; qcompute).
  split; [exact H |].
  apply (proj2 (proj2 (proj2 (proj2 (proj2 (proj2
           (dash_spec [Sample.attempt 1; Sample.attempt 2]))))))).
  exact H.
Defined.

Lemma safeLoad_accepts_witness :
  safeLoad (SlotText (Some (persisted [JNull]))) = Some (persisted [JNull])
  /\ exists members v items,
       persisted [JNull] = JObj members
       /\ lookupMember "v" members = Some (JNum v) /\ v == 1
       /\ lookupMember "attempts" members = Some (JArr items).
Proof.
  split; [reflexivity |].
  apply (proj1 (proj1 (safeLoad_accepts (SlotText (Some (persisted [JNull])))
                         (persisted [JNull])))).
  reflexivity.
Defined.

Lemma safeSave_safeLoad_witness :
  (length [JNull; JBool true] <= MAX_ATTEMPTS)%nat
  /\ loadEffect (safeSave (persisted [JNull; JBool true]) false SlotMissing)
     = Some [JNull; JBool true].
Proof.
  assert (length [JNull; JBool true] <= MAX_ATTEMPTS)%nat as H
    by (unfold MAX_ATTEMPTS; simpl; lia).
  split; [exact H |].
  apply (proj1 (proj2 (proj2 (proj2
           (safeSave_safeLoad [JNull; JBool true] JNull SlotMissing))))).
  exact H.
Defined.

Lemma onPick_wrong_local_witness :
  round Sample.st = Some Sample.rnd
  /\ sw_label Sample.azul_sw <> rd_target Sample.rnd
  /\ failed FetchRejected
  /\ d_action
       (localDecision
          (signalsOf false Sample.azul_sw
             (latencyOf (clock Sample.w (ccur Sample.k)) (roundStartTs Sample.st))
             Sample.st)
          (level Sample.st) (highFrustrationStreak Sample.st)
          (successStreak Sample.st) false) <> ease
  /\ exists st' k',
       onPick Sample.azul_sw FetchRejected Sample.st Sample.w Sample.k
       = Some (Stepped st' HintOffAfter400, k')
       /\ round st' = Some Sample.rnd.
Proof.
  split; [reflexivity |]. split; [discriminate |]. split; [exact I |].
  split; [vm_compute; discriminate |].
  destruct (onPick_wrong_local Sample.azul_sw FetchRejected Sample.st Sample.rnd
              Sample.w Sample.k eq_refl ltac:(discriminate) I
              ltac:(vm_compute; discriminate))
    as (st' & k' & Hrun & Hround & _).
  by exists st', k'.
Defined.

Lemma onPick_ease_local_witness :
  randomsOk Sample.w
  /\ round Frustrated.st = Some Sample.rnd
  /\ failed Aborted
  /\ d_action
       (localDecision
          (signalsOf (bool_decide (sw_label Sample.azul_sw = rd_target Sample.rnd))
             Sample.azul_sw
             (latencyOf (clock Sample.w (ccur Sample.k)) (roundStartTs Frustrated.st))
             Frustrated.st)
          (level Frustrated.st) (highFrustrationStreak Frustrated.st)
          (successStreak Frustrated.st)
          (bool_decide (sw_label Sample.azul_sw = rd_target Sample.rnd))) = ease
  /\ exists st' k',
       onPick Sample.azul_sw Aborted Frustrated.st Sample.w Sample.k
       = Some (Stepped st' NoTimer, k')
       /\ level st' = easy.
Proof.
  split; [apply Sample_randomsOk |]. split; [reflexivity |]. split; [exact I |].
  split; [vm_compute; reflexivity |].
  destruct (onPick_ease_local Sample.azul_sw Aborted Frustrated.st Sample.rnd
              Sample.w Sample.k Sample_randomsOk eq_refl I
              ltac:(vm_compute; reflexivity))
    as (_ & st' & k' & rd & a & Hrun & _ & _ & _ & Hlvl & _).
  by exists st', k'.
Defined.

Lemma onPick_correct_then_timer_witness :
  randomsOk Sample.w
  /\ round Sample.st = Some Sample.rnd
  /\ sw_label Sample.rojo_sw = rd_target Sample.rnd
  /\ failed (Replied true None)
  /\ exists st' lvl k' st'' k'' rd,
       onPick Sample.rojo_sw (Replied true None) Sample.st Sample.w Sample.k
       = Some (Stepped st' (NextRoundAfter700 rojo lvl), k')
       /\ runTimer (NextRoundAfter700 rojo lvl) st' Sample.w k' = Some (st'', k'')
       /\ round st'' = Some rd
       /\ rd_target rd <> rojo.
Proof.
  split; [apply Sample_randomsOk |]. split; [reflexivity |].
  split; [reflexivity |]. split; [exact I |].
  destruct (onPick_correct_then_timer Sample.rojo_sw (Replied true None) Sample.st
              Sample.rnd Sample.w Sample.k Sample_randomsOk eq_refl eq_refl I)
    as (st' & lvl & k' & st'' & k'' & rd & Hrun & _ & _ & _ & Htimer & Hrd & Hne & _).
  by exists st', lvl, k', st'', k'', rd.
Defined.


